(** * firego: a REST client for Firebase -- verification of [firebase.go]

    A shallow embedding of the package's address handling ([sanitizeURL],
    [sanitizePath], [String], [Child], [copy]), of its request executor
    ([doRequest]), of the redirect policy ([redirectPreserveHeaders]) and of
    [Push], followed by the properties proved of them.

    Go strings are byte sequences, so a Go [string] is a Rocq [string] and a
    [[]byte] is a [list byte].  Go maps and slices are reference values: the
    query parameters of a reference live in a store, and two references may
    point at the same backing array. *)

From Stdlib Require Import ZArith String Ascii List Lia.
From Stdlib Require Import Strings.Byte.
From Stdlib Require Import Decimal DecimalString.
From stdpp Require Import base option list sorting gmap strings.

Open Scope string_scope.

(** ** Package [strings] of the Go library, as far as the code uses it *)

Module strings.

(** [strings.HasPrefix(s, prefix)] *)
Definition HasPrefix (s prefix : string) : bool := String.prefix prefix s.

(** [s[:n]], for [n <= len(s)] *)
Definition slice_to (s : string) (n : nat) : string := String.substring 0 n s.

(** [s[n:]], for [n <= len(s)] *)
Definition slice_from (s : string) (n : nat) : string :=
  String.substring n (String.length s - n) s.

(** [strings.HasSuffix(s, suffix)]:
    [len(s) >= len(suffix) && s[len(s)-len(suffix):] == suffix] *)
Definition HasSuffix (s suffix : string) : bool :=
  (String.length suffix <=? String.length s)%nat
  && String.eqb (slice_from s (String.length s - String.length suffix)) suffix.

(** [strings.TrimSuffix(s, suffix)] *)
Definition TrimSuffix (s suffix : string) : string :=
  if HasSuffix s suffix
  then slice_to s (String.length s - String.length suffix)
  else s.

(** [trimLeftByte(s, c)]: drop the leading bytes equal to [c] *)
Fixpoint trimLeftByte (s : string) (c : ascii) : string :=
  match s with
  | EmptyString => EmptyString
  | String a s' => if Ascii.eqb a c then trimLeftByte s' c else s
  end.

(** [trimRightByte(s, c)]: drop the trailing bytes equal to [c] *)
Fixpoint trimRightByte (s : string) (c : ascii) : string :=
  match s with
  | EmptyString => EmptyString
  | String a s' =>
      match trimRightByte s' c with
      | EmptyString => if Ascii.eqb a c then EmptyString else String a EmptyString
      | r => String a r
      end
  end.

(** [strings.Trim(s, cutset)] for a cutset of one ASCII byte, the only way
    the package calls it. *)
Definition Trim (s : string) (c : ascii) : string :=
  trimLeftByte (trimRightByte s c) c.

(** [strings.Repeat(s, n)] for a string [s] of the one byte [c] *)
Fixpoint Repeat (c : ascii) (n : nat) : string :=
  match n with
  | O => EmptyString
  | S n' => String c (Repeat c n')
  end.

End strings.

(** ** [sanitizeURL] and [sanitizePath] *)

Definition sanitizeURL (url : string) : string :=
  let url :=
    if negb (strings.HasPrefix url "https://") && negb (strings.HasPrefix url "http://")
    then "https://" +:+ url
    else url in
  if strings.HasSuffix url "/"
  then strings.slice_to url (String.length url - 1)
  else url.

Definition sanitizePath (p : string) : string :=
  let s := strings.Trim p "/" in
  let s := strings.TrimSuffix s ".json" in
  strings.TrimSuffix s "/".

(** ** Errors

    The dynamic types an [error] value of the program can have.  The type
    switch of [doRequest] tells them apart. *)

Inductive error : Type :=
| errorString (s : string)
    (** [errors.New(s)], [fmt.Errorf(...)]: a plain message *)
| url_Error (Op URL : string) (Err : error)
    (** [*url.Error{Op, URL, Err}] *)
| net_Error (msg : string) (timeout temporary : bool)
    (** a value of any other type that implements [net.Error], such as
        [*net.OpError], with the answers of its [Timeout()] and [Temporary()] *)
| ErrTimeout (e : error).
    (** [ErrTimeout{e}], the package's own timeout error *)

Inductive result (A : Type) : Type :=
| Ok (a : A)
| Err (e : error).
Arguments Ok {A} a.
Arguments Err {A} e.

(** [_, ok := e.(net.Error)]: the method set has [Error], [Timeout] and
    [Temporary].  [*url.Error] has all three; [ErrTimeout] embeds the [error]
    interface and so only has [Error]. *)
Definition implements_net_Error (e : error) : bool :=
  match e with
  | net_Error _ _ _ => true
  | url_Error _ _ _ => true
  | errorString _ => false
  | ErrTimeout _ => false
  end.

(** [e.Timeout()] for a value that has the method; the [Timeout] method of
    [url.Error] asks the wrapped error, and answers false when that one has
    no such method. *)
Fixpoint Timeout (e : error) : bool :=
  match e with
  | net_Error _ t _ => t
  | url_Error _ _ inner => Timeout inner
  | errorString _ => false
  | ErrTimeout _ => false
  end.

(** [e.Error()] *)
Fixpoint Error (e : error) : string :=
  match e with
  | errorString s => s
  | url_Error op u inner => op +:+ " " +:+ u +:+ ": " +:+ Error inner
  | net_Error msg _ _ => msg
  | ErrTimeout inner => Error inner
  end.

(** [_, ok := e.(ErrTimeout)] *)
Definition is_ErrTimeout (e : error) : bool :=
  match e with ErrTimeout _ => true | _ => false end.

(** ** HTTP requests, responses and clients ([net/http]) *)

(** [http.Header] is a [map[string][]string]. *)
Record Request : Type := mkRequest {
  Method : string;
  URL : string;
  Header : gmap string (list string);
  Body : list byte
}.

(** A response as [doRequest] looks at it: the status code, and what
    [ioutil.ReadAll(resp.Body)] returns. *)
Record Response : Type := mkResponse {
  StatusCode : Z;
  ReadAll_Body : result (list byte)
}.

(** Nanoseconds, as [time.Duration]. *)
Definition TimeoutDuration : Z := 30 * 1000000000.

Definition defaultRedirectLimit : nat := 30.

(** The [http.Transport] literal of [New]: keep-alives off, and a [Dial] that
    gives [net.DialTimeout] the [TimeoutDuration] (what is left of it after the
    dial becomes the transport's [ResponseHeaderTimeout]). *)
Record Transport : Type := mkTransport {
  DisableKeepAlives : bool;
  DialTimeout : Z
}.

(** [func(req *http.Request, via []*http.Request) error]; the policy may write
    to [req], so the request comes back with the error. *)
Definition redirect_policy : Type := Request → list Request → Request * option error.

(** [http.Client]; a [None] field is a nil one (the library's default). *)
Record Client : Type := mkClient {
  Client_Transport : option Transport;
  CheckRedirect : option redirect_policy
}.

(** [fmt.Sprintf("%d", n)] for a length *)
Definition itoa (n : nat) : string := NilEmpty.string_of_uint (Nat.to_uint n).

(** [redirectPreserveHeaders]: the [range] loop assigns every entry of the
    first request's header into the header of [req]. *)
Definition redirectPreserveHeaders (req : Request) (via : list Request)
  : Request * option error :=
  match via with
  | [] => (req, None)
  | first :: _ =>
      if (defaultRedirectLimit <? length via)%nat
      then (req, Some (errorString (itoa (length via) +:+ " consecutive requests(redirects)")))
      else
        let hdr := map_fold (λ key val (h : gmap string (list string)), <[key := val]> h)
                            (Header req) (Header first) in
        (mkRequest (Method req) (URL req) hdr (Body req), None)
  end.

(** How [http.Client] drives a policy: before each redirect is followed the
    policy sees the upcoming request and the requests made so far, oldest
    first; an error ends the chain.  [upcoming] lists the requests the client
    builds for the successive redirect responses. *)
Fixpoint follow_redirects (policy : redirect_policy) (via upcoming : list Request)
  : list Request * option error :=
  match upcoming with
  | [] => (via, None)
  | req :: rest =>
      match policy req via with
      | (_, Some e) => (via, Some e)
      | (req', None) => follow_redirects policy (via ++ [req']) rest
      end
  end.

(** ** The store: maps, slices and channels are reference values *)

Definition loc : Type := positive.

(** A [[]string] value: pointer to the backing array, length, capacity. *)
Record slice : Type := mkSlice {
  s_ptr : loc;
  s_len : nat;
  s_cap : nat
}.

Record heap : Type := mkHeap {
  h_values : gmap loc (gmap string slice);  (** [url.Values] objects *)
  h_arrays : gmap loc (list string);        (** backing arrays of [[]string] *)
  h_events : gmap loc (gmap string loc);    (** [map[string]chan struct{}] objects *)
  h_chans : gset loc                        (** channels *)
}.

Definition empty_heap : heap := mkHeap ∅ ∅ ∅ ∅.

(** [_url.Values{}] *)
Definition alloc_values (h : heap) : loc * heap :=
  let l := fresh (dom (h_values h)) in
  (l, mkHeap (<[l := ∅]> (h_values h)) (h_arrays h) (h_events h) (h_chans h)).

(** [make(chan struct{})] *)
Definition alloc_chan (h : heap) : loc * heap :=
  let l := fresh (h_chans h) in
  (l, mkHeap (h_values h) (h_arrays h) (h_events h) ({[l]} ∪ h_chans h)).

(** [map[string]chan struct{}{}] *)
Definition alloc_events (h : heap) : loc * heap :=
  let l := fresh (dom (h_events h)) in
  (l, mkHeap (h_values h) (h_arrays h) (<[l := ∅]> (h_events h)) (h_chans h)).

(** [[]string{a}] *)
Definition alloc_array (a : list string) (h : heap) : slice * heap :=
  let l := fresh (dom (h_arrays h)) in
  (mkSlice l (length a) (length a),
   mkHeap (h_values h) (<[l := a]> (h_arrays h)) (h_events h) (h_chans h)).

(** The map object behind a [url.Values]; a nil map reads as empty. *)
Definition values_at (h : heap) (m : loc) : gmap string slice :=
  default ∅ (h_values h !! m).

(** [m[key] = v], for a map that has been made *)
Definition values_assign (h : heap) (m : loc) (key : string) (v : slice) : heap :=
  mkHeap (alter (λ o, <[key := v]> o) m (h_values h)) (h_arrays h) (h_events h) (h_chans h).

(** [delete(m, key)] *)
Definition values_delete (h : heap) (m : loc) (key : string) : heap :=
  mkHeap (alter (λ o, delete key o) m (h_values h)) (h_arrays h) (h_events h) (h_chans h).

(** The strings a slice value shows: the first [len] cells of its array. *)
Definition slice_read (h : heap) (s : slice) : list string :=
  take (s_len s) (default [] (h_arrays h !! s_ptr s)).

(** [s[i] = x]; out of range it panics ([None]). *)
Definition slice_store (h : heap) (s : slice) (i : nat) (x : string) : option heap :=
  if (i <? s_len s)%nat
  then Some (mkHeap (h_values h) (alter (λ a, <[i := x]> a) (s_ptr s) (h_arrays h))
                    (h_events h) (h_chans h))
  else None.

(** What a [url.Values] holds, as a caller reads it: key to list of strings. *)
Definition values_read (h : heap) (m : loc) : gmap string (list string) :=
  slice_read h <$> values_at h m.

(** Package [net/url]: the methods of [Values] that replace or remove a key,
    and the plain Go assignment through a slice that a key holds. *)
Module Values.

(** [v[key] = []string{value}] *)
Definition Set_ (h : heap) (v : loc) (key value : string) : heap :=
  let (s, h1) := alloc_array [value] h in
  values_assign h1 v key s.

(** [delete(v, key)] *)
Definition Del (h : heap) (v : loc) (key : string) : heap :=
  values_delete h v key.

(** [v[key][i] = x], an assignment through the slice a key holds *)
Definition store_at (h : heap) (v : loc) (key : string) (i : nat) (x : string)
  : option heap :=
  match values_at h v !! key with
  | Some s => slice_store h s i x
  | None => None
  end.

End Values.

(** A change of one key of a parameter map. *)
Inductive mutation : Type :=
| MSet (key value : string)
| MDel (key : string).

Definition mutate (v : loc) (h : heap) (mu : mutation) : heap :=
  match mu with
  | MSet key value => Values.Set_ h v key value
  | MDel key => Values.Del h v key
  end.

Definition mutate_all (v : loc) (h : heap) (mus : list mutation) : heap :=
  foldl (mutate v) h mus.

(** ** [Firebase], a location in the cloud

    The two mutexes hold no data and are left out. *)
Record Firebase : Type := mkFirebase {
  url : string;
  params : loc;
  client : Client;
  eventFuncs : loc;
  watching : bool;
  stopWatching : loc
}.

Definition firego_Transport : Transport := mkTransport true TimeoutDuration.

Definition firego_Client : Client :=
  mkClient (Some firego_Transport) (Some redirectPreserveHeaders).

(** [New(url, client)]; [None] is a nil client. *)
Definition New (url0 : string) (cl : option Client) (h : heap) : Firebase * heap :=
  let cl := match cl with
            | None => firego_Client
            | Some c => c
            end in
  let u := sanitizeURL url0 in
  let (p, h1) := alloc_values h in
  let (ch, h2) := alloc_chan h1 in
  let (ev, h3) := alloc_events h2 in
  (mkFirebase u p cl ev false ch, h3).

(** [fb.copy()] *)
Definition copy (fb : Firebase) (h : heap) : Firebase * heap :=
  let (p, h1) := alloc_values h in
  let (ch, h2) := alloc_chan h1 in
  let (ev, h3) := alloc_events h2 in
  let c := mkFirebase (url fb) p (client fb) ev false ch in
  let h4 := map_fold (λ k v h', values_assign h' (params c) k v) h3
                     (values_at h3 (params fb)) in
  (c, h4).

(** [fb.Child(child)] *)
Definition Child (fb : Firebase) (child : string) (h : heap) : Firebase * heap :=
  let (c, h1) := copy fb h in
  (mkFirebase (url c +:+ "/" +:+ child) (params c) (client c)
              (eventFuncs c) (watching c) (stopWatching c), h1).

(** ** Package [net/url]: [QueryEscape] and [Values.Encode] *)

Module url_pkg.

Definition upperhex : string := "0123456789ABCDEF".

Definition hex_digit (n : N) : ascii :=
  default "0"%char (String.get (N.to_nat n) upperhex).

(** [shouldEscape(c, encodeQueryComponent)]: letters, digits and [-_.~]
    pass; every other byte is escaped. *)
Definition shouldEscape (c : ascii) : bool :=
  let n := N_of_ascii c in
  negb (((97 <=? n) && (n <=? 122))%N
        || ((65 <=? n) && (n <=? 90))%N
        || ((48 <=? n) && (n <=? 57))%N
        || Ascii.eqb c "-" || Ascii.eqb c "_" || Ascii.eqb c "." || Ascii.eqb c "~").

(** [QueryEscape(s)]: a space becomes [+], an escaped byte [%XX]. *)
Fixpoint QueryEscape (s : string) : string :=
  match s with
  | EmptyString => EmptyString
  | String c s' =>
      if Ascii.eqb c " " then String "+" (QueryEscape s')
      else if shouldEscape c
           then String "%" (String (hex_digit (N_of_ascii c / 16))
                                   (String (hex_digit (N_of_ascii c mod 16))
                                           (QueryEscape s')))
           else String c (QueryEscape s')
  end.

(** One turn of the inner loop of [Encode]. *)
Definition write_pair (keyEscaped : string) (buf v : string) : string :=
  (if (0 <? String.length buf)%nat then buf +:+ "&" else buf)
    +:+ keyEscaped +:+ "=" +:+ QueryEscape v.

(** [v.Encode()]: the keys in [sort.Strings] order, each with its values. *)
Definition Encode (v : gmap string (list string)) : string :=
  let keys := merge_sort String.le (fst <$> map_to_list v) in
  foldl (λ buf k, foldl (write_pair (QueryEscape k)) buf (default [] (v !! k)))
        EmptyString keys.

End url_pkg.

(** ** Rendering and the request executor

    The network and the remote service are a [World] that [http.Client.Do]
    reads and changes.  [http.NewRequest] and [http.Client.Do] belong to the
    Go library and are taken as given. *)

Section Executor.

Variable World : Type.
Variable http_NewRequest : string → string → list byte → result Request.
Variable http_Client_Do : Client → Request → World → result Response * World.

(** [fb.String()] *)
Definition Firebase_String (h : heap) (fb : Firebase) : string :=
  let path := url fb +:+ "/.json" in
  if (0 <? size (values_at h (params fb)))%nat
  then path +:+ "?" +:+ url_pkg.Encode (values_read h (params fb))
  else path.

(** [fb.makeRequest(method, body)] *)
Definition makeRequest (h : heap) (fb : Firebase) (method : string) (body : list byte)
  : result Request :=
  http_NewRequest method (Firebase_String h fb) body.

(** [fb.doRequest(method, body)].  [StatusCode] is an [int] and [/] on
    integers truncates toward zero, which is [Z.quot]. *)
Definition doRequest (h : heap) (fb : Firebase) (method : string) (body : list byte)
           (w : World) : result (list byte) * World :=
  match makeRequest h fb method body with
  | Err err => (Err err, w)
  | Ok req =>
      match http_Client_Do (client fb) req w with
      | (Err err, w') =>
          match err with
          | url_Error _ _ inner =>
              if implements_net_Error inner && Timeout inner
              then (Err (ErrTimeout err), w')
              else (Err err, w')
          | net_Error _ _ _ =>
              if Timeout err
              then (Err (ErrTimeout err), w')
              else (Err err, w')
          | _ => (Err err, w')
          end
      | (Ok resp, w') =>
          match ReadAll_Body resp with
          | Err err => (Err err, w')
          | Ok respBody =>
              if negb (Z.quot (StatusCode resp) 200 =? 1)%Z
              then (Err (errorString (string_of_list_byte respBody)), w')
              else (Ok respBody, w')
          end
      end
  end.

End Executor.



(** ** [Push]

    [Push] is written against the revision of [Firebase] that keeps the
    address as [repo] and [path].  [json.Marshal], [json.Unmarshal] into a
    [map[string]string] and that revision's [doRequest] are taken as given. *)

Module PushRef.

Record Firebase : Type := mkFirebase {
  repo : string;
  path : string;
  client : Client
}.

Section Push.

Variable World : Type.
Variable value : Type.
Variable json_Marshal : value → result (list byte).
Variable json_Unmarshal : list byte → result (gmap string string).
Variable doRequest : Firebase → string → list byte → World → result (list byte) * World.

(** [m[key]] on a [map[string]string]: the zero value when absent *)
Definition index (m : gmap string string) (key : string) : string :=
  default EmptyString (m !! key).

Definition Push (fb : Firebase) (v : value) (w : World) : result Firebase * World :=
  match json_Marshal v with
  | Err err => (Err err, w)
  | Ok bytes =>
      match doRequest fb "POST" bytes w with
      | (Err err, w') => (Err err, w')
      | (Ok bytes', w') =>
          match json_Unmarshal bytes' with
          | Err err => (Err err, w')
          | Ok m =>
              (Ok (mkFirebase (repo fb) (path fb +:+ "/" +:+ index m "name") (client fb)),
               w')
          end
      end
  end.

End Push.

End PushRef.

(** ** Streaming sessions *)

Module Streaming.

(** Modelled from the spec: the start and stop of a streaming session are
    not in [firebase.go], which only declares the [watching] flag, its mutex
    and the [stopWatching] channel.  Following section 4.4, a session is
    Idle or Streaming; every operation runs under the reference's lock, so
    operations are atomic steps.  [readers] counts the decode loops that
    read the connection. *)
Record state : Type := mkState {
  watching : bool;
  readers : nat
}.

(** Modelled from the spec: a reference holds no stream until one is
    started. *)
Definition idle : state := mkState false 0.

(** Modelled from the spec: what a start reports, a new session or the
    refusal because one is active. *)
Inductive outcome : Type :=
| Started
| AlreadyStreaming.

(** Modelled from the spec: Start opens the connection and its decode loop
    unless a session is active; then it changes nothing and says so. *)
Definition Start (s : state) : state * outcome :=
  if watching s
  then (s, AlreadyStreaming)
  else (mkState true (S (readers s)), Started).

(** Modelled from the spec: Stop signals the read loop to terminate and
    returns to Idle; on an idle reference it does nothing. *)
Definition Stop (s : state) : state :=
  if watching s
  then mkState false (pred (readers s))
  else s.

(** Modelled from the spec: a read or decode error, or a revocation event,
    ends the session; there is no automatic reconnect. *)
Definition Fail (s : state) : state :=
  if watching s
  then mkState false (pred (readers s))
  else s.

(** Modelled from the spec: the events of the state machine of section 4.4. *)
Inductive op : Type :=
| OpStart
| OpStop
| OpFail.

(** Modelled from the spec: one atomic step of a reference's session. *)
Definition step (s : state) (o : op) : state :=
  match o with
  | OpStart => fst (Start s)
  | OpStop => Stop s
  | OpFail => Fail s
  end.

(** Modelled from the spec: the state after a history of events, from a
    fresh reference. *)
Definition run (os : list op) : state := foldl step idle os.

End Streaming.

(** ** Invariants used by the proofs *)

(** Every slice a parameter map holds points at an allocated array. *)
Definition heap_wf (h : heap) : Prop :=
  ∀ m vm k s, h_values h !! m = Some vm → vm !! k = Some s →
              s_ptr s ∈ dom (h_arrays h).

(** All requests of a chain carry the header entries of the original. *)
Definition carries (orig : Request) (via : list Request) : Prop :=
  ∀ r, r ∈ via → Header orig ⊆ Header r.

(** ** Sample references, networks and services

    Concrete inputs on which the theorems below are tried. *)

(** A parent with [auth=token], as [New] and [Values.Set] leave it. *)
Definition parent_ref : Firebase := (New "example.com" None empty_heap).1.

Definition parent_heap : heap :=
  Values.Set_ (New "example.com" None empty_heap).2 (params parent_ref) "auth" "token".

Definition child_ref : Firebase := (Child parent_ref "users" parent_heap).1.

Definition child_heap : heap := (Child parent_ref "users" parent_heap).2.

(** A network for examples: [http.NewRequest] accepts everything, and the
    client answers every request with the same canned outcome. *)
Definition plain_NewRequest (method u : string) (body : list byte) : result Request :=
  Ok (mkRequest method u ∅ body).

Definition canned_Do (answer : result Response) (_ : Client) (_ : Request) (w : unit)
  : result Response * unit :=
  (answer, w).

Definition choices : list byte := list_byte_of_string "Multiple Choices".

Definition refused : list byte := list_byte_of_string "Permission denied".

Definition dial_timeout : error := net_Error "dial tcp: i/o timeout" true true.


Definition orig_req : Request :=
  mkRequest "GET" "https://example.com/.json" {["Authorization" := ["Bearer t"]]} [].

Definition next_req : Request :=
  mkRequest "GET" "https://eu.example.com/.json" ∅ [].

(** A service for examples: values are optional strings (a missing one
    cannot be serialised), every request is logged and answered with a key,
    and the decoder reads the body as the [name] field. *)
Definition toy_Marshal (v : option string) : result (list byte) :=
  match v with
  | Some s => Ok (list_byte_of_string s)
  | None => Err (errorString "json: unsupported type")
  end.

Definition toy_Unmarshal (b : list byte) : result (gmap string string) :=
  Ok {["name" := string_of_list_byte b]}.

Definition toy_doRequest (fb : PushRef.Firebase) (method : string) (body : list byte)
           (log : list (string * list byte)) : result (list byte) * list (string * list byte) :=
  (Ok (list_byte_of_string "-Kabc"), log ++ [(method, body)])%list.

Definition toy_ref : PushRef.Firebase :=
  PushRef.mkFirebase "example" "/users" firego_Client.


(** A request builder that refuses every request, as [http.NewRequest] does
    for an invalid method, and a client that logs what it is given. *)
Definition rejecting_NewRequest (method u : string) (body : list byte) : result Request :=
  Err (errorString "net/http: invalid method").

Definition logging_Do (_ : Client) (req : Request) (log : list Request)
  : result Response * list Request :=
  (Ok (mkResponse 200 (Ok [])), (log ++ [req])%list).

(** Decoders for a response without a [name] field and for one that is not
    JSON. *)
Definition nameless_Unmarshal (b : list byte) : result (gmap string string) :=
  Ok ∅.

Definition failing_Unmarshal (b : list byte) : result (gmap string string) :=
  Err (errorString "unexpected end of JSON input").

(** * Properties *)

(** ** Facts about the string functions *)

Section StringFacts.

Implicit Types (s t p : string) (a c : ascii).

Lemma string_app_nil_l t : EmptyString +:+ t = t.
Proof. reflexivity. Qed.

Lemma string_app_cons a s t : String a s +:+ t = String a (s +:+ t).
Proof. reflexivity. Qed.

Lemma string_app_empty_r s : s +:+ EmptyString = s.
Proof.
  induction s as [|a s IH]; [done|]. by rewrite string_app_cons, IH.
Qed.

Lemma string_app_assoc s t p : (s +:+ t) +:+ p = s +:+ (t +:+ p).
Proof.
  induction s as [|a s IH]; [done|]. by rewrite !string_app_cons, IH.
Qed.

Lemma string_app_nonempty_r s t : t ≠ EmptyString → s +:+ t ≠ EmptyString.
Proof. destruct s, t; done. Qed.

Lemma string_length_app s t :
  String.length (s +:+ t) = (String.length s + String.length t)%nat.
Proof.
  induction s as [|a s IH]; [done|]. rewrite string_app_cons. simpl. by rewrite IH.
Qed.

Lemma substring_all s : String.substring 0 (String.length s) s = s.
Proof. induction s as [|a s IH]; simpl; [done | by rewrite IH]. Qed.

Lemma substring_0_app s t :
  String.substring 0 (String.length s) (s +:+ t) = s.
Proof.
  induction s as [|a s IH].
  - rewrite string_app_nil_l. by destruct t.
  - rewrite string_app_cons. simpl. by rewrite IH.
Qed.

Lemma substring_skip_app s t n :
  String.substring (String.length s) n (s +:+ t) = String.substring 0 n t.
Proof.
  induction s as [|a s IH]; [done|]. rewrite string_app_cons. simpl. apply IH.
Qed.

Lemma slice_to_app s t :
  strings.slice_to (s +:+ t) (String.length s) = s.
Proof. apply substring_0_app. Qed.

Lemma slice_from_app s t :
  strings.slice_from (s +:+ t) (String.length s) = t.
Proof.
  unfold strings.slice_from. rewrite substring_skip_app, string_length_app.
  replace (String.length s + String.length t - String.length s)%nat
    with (String.length t) by lia.
  apply substring_all.
Qed.

Lemma HasPrefix_app s p : strings.HasPrefix (p +:+ s) p = true.
Proof.
  unfold strings.HasPrefix. apply prefix_correct, substring_0_app.
Qed.

Lemma HasSuffix_app s t : strings.HasSuffix (s +:+ t) t = true.
Proof.
  unfold strings.HasSuffix. rewrite string_length_app.
  replace (String.length s + String.length t - String.length t)%nat
    with (String.length s) by lia.
  rewrite slice_from_app, String.eqb_refl, andb_true_r.
  apply Nat.leb_le. lia.
Qed.

Lemma TrimSuffix_app s t : strings.TrimSuffix (s +:+ t) t = s.
Proof.
  unfold strings.TrimSuffix. rewrite HasSuffix_app, string_length_app.
  replace (String.length s + String.length t - String.length t)%nat
    with (String.length s) by lia.
  apply slice_to_app.
Qed.

Lemma TrimSuffix_none s t :
  strings.HasSuffix s t = false → strings.TrimSuffix s t = s.
Proof. unfold strings.TrimSuffix. by intros ->. Qed.

(** A one-byte suffix only looks at the last byte. *)
Lemma HasSuffix_byte_cons a s c :
  s ≠ EmptyString →
  strings.HasSuffix (String a s) (String c EmptyString)
  = strings.HasSuffix s (String c EmptyString).
Proof.
  intros Hs. unfold strings.HasSuffix, strings.slice_from.
  destruct s as [|b s]; [done|]. simpl.
  rewrite !Nat.sub_0_r.
  replace (String.length s - String.length s)%nat with 0%nat by lia.
  replace (S (String.length s) - String.length s)%nat with 1%nat by lia.
  done.
Qed.

Lemma HasSuffix_byte_app p s c :
  s ≠ EmptyString →
  strings.HasSuffix (p +:+ s) (String c EmptyString)
  = strings.HasSuffix s (String c EmptyString).
Proof.
  intros Hs. induction p as [|a p IH]; [done|].
  rewrite string_app_cons, HasSuffix_byte_cons; [done|]. by apply string_app_nonempty_r.
Qed.

Lemma HasSuffix_byte_single a c :
  strings.HasSuffix (String a EmptyString) (String c EmptyString) = Ascii.eqb a c.
Proof.
  unfold strings.HasSuffix, strings.slice_from. simpl.
  destruct (Ascii.eqb a c); done.
Qed.

Lemma TrimSuffix_byte_cons a s c :
  s ≠ EmptyString →
  strings.TrimSuffix (String a s) (String c EmptyString)
  = String a (strings.TrimSuffix s (String c EmptyString)).
Proof.
  intros Hs. unfold strings.TrimSuffix. rewrite HasSuffix_byte_cons by done.
  destruct (strings.HasSuffix s (String c EmptyString)); [|done].
  unfold strings.slice_to. destruct s as [|b s]; [done|]. simpl.
  by rewrite !Nat.sub_0_r.
Qed.

Lemma TrimSuffix_byte_app p s c :
  s ≠ EmptyString →
  strings.TrimSuffix (p +:+ s) (String c EmptyString)
  = p +:+ strings.TrimSuffix s (String c EmptyString).
Proof.
  intros Hs. induction p as [|a p IH]; [done|].
  rewrite !string_app_cons, TrimSuffix_byte_cons, IH; [done|]. by apply string_app_nonempty_r.
Qed.

Lemma HasPrefix_byte_cons a s c :
  strings.HasPrefix (String a s) (String c EmptyString) = Ascii.eqb a c.
Proof.
  unfold strings.HasPrefix. simpl.
  destruct (ascii_dec c a) as [->|Hne].
  - rewrite Ascii.eqb_refl. by destruct s.
  - symmetry. apply Ascii.eqb_neq. congruence.
Qed.

Lemma HasPrefix_app_long s t p :
  (String.length p ≤ String.length s)%nat →
  strings.HasPrefix (s +:+ t) p = strings.HasPrefix s p.
Proof.
  unfold strings.HasPrefix. revert s.
  induction p as [|c p IH]; intros s Hlen.
  - by destruct s, t.
  - destruct s as [|a s]; simpl in Hlen; [lia|]. rewrite string_app_cons. simpl.
    destruct (ascii_dec c a); [|done]. apply IH. lia.
Qed.

(** Trimming bytes *)

Lemma trimLeftByte_Repeat_app c n s :
  strings.trimLeftByte (strings.Repeat c n +:+ s) c = strings.trimLeftByte s c.
Proof.
  induction n as [|n IH]; [done|]. simpl strings.Repeat.
  rewrite string_app_cons. simpl. by rewrite Ascii.eqb_refl.
Qed.

Lemma trimLeftByte_id s c :
  strings.HasPrefix s (String c EmptyString) = false → strings.trimLeftByte s c = s.
Proof.
  destruct s as [|a s]; [done|]. rewrite HasPrefix_byte_cons. simpl. by intros ->.
Qed.

Lemma trimRightByte_Repeat c n :
  strings.trimRightByte (strings.Repeat c n) c = EmptyString.
Proof. induction n as [|n IH]; simpl; [done | by rewrite IH, Ascii.eqb_refl]. Qed.

Lemma trimRightByte_app_Repeat s c n :
  strings.trimRightByte (s +:+ strings.Repeat c n) c = strings.trimRightByte s c.
Proof.
  induction s as [|a s IH]; [apply trimRightByte_Repeat|].
  rewrite string_app_cons. simpl. by rewrite IH.
Qed.

Lemma trimRightByte_id s c :
  strings.HasSuffix s (String c EmptyString) = false → strings.trimRightByte s c = s.
Proof.
  induction s as [|a s IH]; [done|]. intros H. simpl.
  destruct s as [|b s].
  - rewrite HasSuffix_byte_single in H. simpl. by rewrite H.
  - rewrite HasSuffix_byte_cons in H by done. by rewrite IH.
Qed.

End StringFacts.

Example Encode_two_keys :
  url_pkg.Encode (<["shallow" := ["true"]]> (<["auth" := ["a b/c"]]> ∅))
  = "auth=a+b%2Fc&shallow=true".
Proof. vm_compute. reflexivity. Qed.

(** ** Address normalisation *)

Lemma HasPrefix_inv (s p : string) :
  strings.HasPrefix s p = true → ∃ r, s = p +:+ r.
Proof.
  unfold strings.HasPrefix. revert s.
  induction p as [|c p IH]; intros s H.
  - by exists s.
  - destruct s as [|a s]; simpl in H; [done|].
    destruct (ascii_dec c a) as [->|]; [|done].
    destruct (IH s H) as [r ->]. by exists r.
Qed.

(** The last step of [sanitizeURL] is a [TrimSuffix] of one slash. *)
Lemma sanitizeURL_unfold (url : string) :
  sanitizeURL url =
  strings.TrimSuffix
    (if negb (strings.HasPrefix url "https://") && negb (strings.HasPrefix url "http://")
     then "https://" +:+ url else url) "/".
Proof. reflexivity. Qed.

Lemma sanitizeURL_bare (url : string) :
  strings.HasPrefix url "https://" = false →
  strings.HasPrefix url "http://" = false →
  url ≠ EmptyString →
  sanitizeURL url = "https://" +:+ strings.TrimSuffix url "/".
Proof.
  intros H1 H2 Hne. rewrite sanitizeURL_unfold, H1, H2. simpl negb. simpl andb.
  by apply TrimSuffix_byte_app.
Qed.

Lemma sanitizeURL_https (r : string) :
  r ≠ EmptyString →
  sanitizeURL ("https://" +:+ r) = "https://" +:+ strings.TrimSuffix r "/".
Proof.
  intros Hne. rewrite sanitizeURL_unfold, HasPrefix_app. simpl negb. simpl andb.
  by apply TrimSuffix_byte_app.
Qed.

Example sanitizeURL_trailing_slash :
  sanitizeURL "example.firebaseio.com/" = "https://example.firebaseio.com".
Proof. reflexivity. Qed.

Example sanitizeURL_http_kept : sanitizeURL "http://localhost:9000/" = "http://localhost:9000".
Proof. reflexivity. Qed.

Example sanitizePath_comment : sanitizePath "/foo/.json" = "foo".
Proof. reflexivity. Qed.

(** C9: an address that begins with neither [http://] nor [https://] gets
    [https://] put in front of it, whatever else it starts with (so
    [ftp://host] becomes [https://ftp://host]); the result is that prefixed
    address less at most one trailing slash.  An address that begins with
    [http://] is not prefixed: it keeps [http:] and never comes out as an
    [https://] address. *)
Theorem sanitizeURL_scheme (url : string) :
  (strings.HasPrefix url "https://" = false →
   strings.HasPrefix url "http://" = false →
   sanitizeURL url = strings.TrimSuffix ("https://" +:+ url) "/"
   ∧ (url ≠ EmptyString → sanitizeURL url = "https://" +:+ strings.TrimSuffix url "/"))
  ∧ (strings.HasPrefix url "http://" = true →
     sanitizeURL url = strings.TrimSuffix url "/"
     ∧ strings.HasPrefix (sanitizeURL url) "https://" = false
     ∧ strings.HasPrefix (sanitizeURL url) "http:/" = true)
  ∧ sanitizeURL "ftp://host" = "https://ftp://host".
Proof.
  split; [|split]; [| |reflexivity].
  - intros H1 H2. split.
    + by rewrite sanitizeURL_unfold, H1, H2.
    + by apply sanitizeURL_bare.
  - intros H. destruct (HasPrefix_inv _ _ H) as [r ->].
    assert (Hs : strings.HasPrefix ("http://" +:+ r) "https://" = false) by reflexivity.
    assert (Hu : sanitizeURL ("http://" +:+ r) = strings.TrimSuffix ("http://" +:+ r) "/")
      by (by rewrite sanitizeURL_unfold, Hs, H).
    rewrite Hu. split; [done|].
    destruct r as [|a r]; [by vm_compute|].
    by rewrite TrimSuffix_byte_app.
Qed.

Lemma sanitizeURL_scheme_witness :
  sanitizeURL "example.com/" = "https://" +:+ strings.TrimSuffix "example.com/" "/"
  ∧ strings.HasPrefix (sanitizeURL "http://localhost/") "https://" = false.
Proof.
  split.
  - apply (sanitizeURL_scheme "example.com/"); reflexivity || discriminate.
  - apply (sanitizeURL_scheme "http://localhost/"); reflexivity.
Defined.

Lemma HasPrefix_snoc (A p : string) (c : ascii) :
  strings.HasPrefix (A +:+ String c EmptyString) (p +:+ String c EmptyString) = true →
  strings.HasPrefix A (p +:+ String c EmptyString) = false →
  A = p.
Proof.
  unfold strings.HasPrefix. revert A.
  induction p as [|x p IH]; intros A H1 H2.
  - destruct A as [|a A]; [done|]. rewrite string_app_nil_l, string_app_cons in *. simpl in *.
    destruct (ascii_dec c a); [by destruct A | done].
  - destruct A as [|a A]; rewrite ?string_app_nil_l, ?string_app_cons in *; simpl in *.
    + destruct (ascii_dec x c); [by destruct p | done].
    + destruct (ascii_dec x a) as [->|]; [|done]. f_equal. by apply IH.
Qed.

(** A trailing slash does not create a scheme prefix. *)
Lemma HasPrefix_slash_scheme (A : string) (scheme : string) :
  scheme = "https:/" ∨ scheme = "http:/" →
  strings.HasSuffix A "/" = false →
  strings.HasPrefix A (scheme +:+ "/") = false →
  strings.HasPrefix (A +:+ "/") (scheme +:+ "/") = false.
Proof.
  intros Hsch Hsuf Hpre.
  destruct (strings.HasPrefix (A +:+ "/") (scheme +:+ "/")) eqn:E; [|done].
  apply HasPrefix_snoc in E; [|done]. subst A.
  by destruct Hsch as [-> | ->].
Qed.

Lemma New_url (u : string) (cl : option Client) (h : heap) :
  url (New u cl h).1 = sanitizeURL u.
Proof. reflexivity. Qed.

Lemma New_params_empty (u : string) (cl : option Client) (h : heap) :
  values_at (New u cl h).2 (params (New u cl h).1) = ∅.
Proof.
  unfold New, alloc_values, alloc_chan, alloc_events, values_at. simpl.
  by rewrite lookup_insert_eq.
Qed.

Lemma New_String (u : string) (cl : option Client) (h : heap) :
  Firebase_String (New u cl h).2 (New u cl h).1 = sanitizeURL u +:+ "/.json".
Proof.
  unfold Firebase_String. rewrite New_params_empty, New_url. reflexivity.
Qed.

(** C5, amended: for an address [A] written without scheme, not empty and
    not ending in a slash, the four spellings [A], [A/], [https://A] and
    [https://A/] normalise to the same address [https://A], and a reference
    made from any of them renders as [https://A/.json]. *)
Theorem sanitizeURL_canonical (A v : string) (cl : option Client) (h : heap) :
  A ≠ EmptyString →
  strings.HasSuffix A "/" = false →
  strings.HasPrefix A "https://" = false →
  strings.HasPrefix A "http://" = false →
  v ∈ [A; A +:+ "/"; "https://" +:+ A; "https://" +:+ (A +:+ "/")] →
  sanitizeURL v = "https://" +:+ A
  ∧ Firebase_String (New v cl h).2 (New v cl h).1 = "https://" +:+ (A +:+ "/.json").
Proof.
  intros Hne Hsuf Hs Hp Hv.
  assert (Hslash : A +:+ "/" ≠ EmptyString) by (by apply string_app_nonempty_r).
  assert (E : sanitizeURL v = "https://" +:+ A).
  { rewrite !elem_of_cons, elem_of_nil in Hv.
    destruct Hv as [-> | [-> | [-> | [-> | []]]]].
    - rewrite sanitizeURL_bare, TrimSuffix_none; done.
    - rewrite sanitizeURL_bare, TrimSuffix_app; [done | | |done].
      + apply (HasPrefix_slash_scheme A "https:/"); auto.
      + apply (HasPrefix_slash_scheme A "http:/"); auto.
    - rewrite sanitizeURL_https, TrimSuffix_none; done.
    - rewrite sanitizeURL_https, TrimSuffix_app; done. }
  split; [done|].
  by rewrite New_String, E, string_app_assoc.
Qed.

Lemma sanitizeURL_canonical_witness :
  sanitizeURL "example.firebaseio.com/" = "https://example.firebaseio.com"
  ∧ Firebase_String (New "example.firebaseio.com/" None empty_heap).2
                    (New "example.firebaseio.com/" None empty_heap).1
    = "https://example.firebaseio.com/.json".
Proof.
  apply (sanitizeURL_canonical "example.firebaseio.com" "example.firebaseio.com/"
                               None empty_heap);
    [discriminate | reflexivity | reflexivity | reflexivity |].
  apply list_elem_of_In. simpl. tauto.
Defined.

(** C5 as stated fails: a second trailing slash survives, an [http://]
    address does not render like the same address without scheme, and the
    empty address renders differently with and without a slash. *)
Lemma sanitizeURL_canonical_counterexample :
  Firebase_String (New "example.com//" None empty_heap).2
                  (New "example.com//" None empty_heap).1
    = "https://example.com//.json"
  ∧ Firebase_String (New "http://example.com" None empty_heap).2
                    (New "http://example.com" None empty_heap).1
    = "http://example.com/.json"
  ∧ Firebase_String (New "example.com" None empty_heap).2
                    (New "example.com" None empty_heap).1
    = "https://example.com/.json"
  ∧ Firebase_String (New "example.com//" None empty_heap).2
                    (New "example.com//" None empty_heap).1
    ≠ Firebase_String (New "example.com" None empty_heap).2
                      (New "example.com" None empty_heap).1
  ∧ Firebase_String (New "http://example.com" None empty_heap).2
                    (New "http://example.com" None empty_heap).1
    ≠ Firebase_String (New "example.com" None empty_heap).2
                      (New "example.com" None empty_heap).1
  ∧ Firebase_String (New EmptyString None empty_heap).2
                    (New EmptyString None empty_heap).1
    ≠ Firebase_String (New "/" None empty_heap).2
                      (New "/" None empty_heap).1.
Proof. rewrite !New_String. repeat split; discriminate. Qed.

(** ** Child references and path segments *)

Lemma copy_url (fb : Firebase) (h : heap) : url (copy fb h).1 = url fb.
Proof. reflexivity. Qed.

Lemma Child_url (fb : Firebase) (child : string) (h : heap) :
  url (Child fb child h).1 = url fb +:+ "/" +:+ child.
Proof. reflexivity. Qed.

(** What [sanitizePath] does to a segment [c] that is already clean, wrapped
    in slashes and given one of the three endings. *)
Lemma sanitizePath_variant (c sfx : string) (a b : nat) :
  strings.HasPrefix c "/" = false →
  strings.HasSuffix c "/" = false →
  strings.HasSuffix c ".json" = false →
  sfx ∈ [EmptyString; ".json"; "/.json"] →
  sanitizePath (strings.Repeat "/" a +:+ (c +:+ sfx) +:+ strings.Repeat "/" b) = c.
Proof.
  intros Hpre Hsuf Hjson Hsfx. unfold sanitizePath, strings.Trim.
  rewrite <- (string_app_assoc (strings.Repeat "/" a)), trimRightByte_app_Repeat.
  rewrite !elem_of_cons, elem_of_nil in Hsfx.
  destruct (decide (c = EmptyString)) as [-> | Hc].
  { destruct Hsfx as [-> | [-> | [-> | []]]]; rewrite string_app_nil_l.
    - by rewrite string_app_empty_r, trimRightByte_Repeat.
    - rewrite trimRightByte_id, trimLeftByte_Repeat_app; [done|].
      by rewrite HasSuffix_byte_app.
    - rewrite trimRightByte_id, trimLeftByte_Repeat_app; [done|].
      by rewrite HasSuffix_byte_app. }
  assert (Hend : strings.HasSuffix (c +:+ sfx) "/" = false).
  { destruct Hsfx as [-> | [-> | [-> | []]]].
    - by rewrite string_app_empty_r.
    - by rewrite HasSuffix_byte_app.
    - by rewrite HasSuffix_byte_app. }
  assert (Hbeg : strings.HasPrefix (c +:+ sfx) "/" = false).
  { rewrite HasPrefix_app_long; [done|]. destruct c; [done | simpl; lia]. }
  assert (Hcs : c +:+ sfx ≠ EmptyString) by (by destruct c).
  rewrite trimRightByte_id by (by rewrite HasSuffix_byte_app).
  rewrite trimLeftByte_Repeat_app, trimLeftByte_id by done.
  destruct Hsfx as [-> | [-> | [-> | []]]].
  - by rewrite string_app_empty_r, (TrimSuffix_none c ".json"), TrimSuffix_none.
  - by rewrite TrimSuffix_app, TrimSuffix_none.
  - change "/.json" with ("/" +:+ ".json").
    by rewrite <- string_app_assoc, !TrimSuffix_app.
Qed.

(** C3, amended: [sanitizePath] strips all leading and trailing slashes,
    then a [.json] suffix, then one slash.  For a clean segment [c] (no
    slash at either end, no [.json] suffix), every spelling made of leading
    slashes, [c], one of the endings nothing, [.json], [/.json], and trailing
    slashes sanitises to [c].  [Child] itself appends a slash and the segment
    as given, so the derived address is the same for all spellings once the
    segment has gone through [sanitizePath]. *)
Theorem sanitizePath_Child (fb : Firebase) (h : heap) (c sfx : string) (a b : nat) :
  strings.HasPrefix c "/" = false →
  strings.HasSuffix c "/" = false →
  strings.HasSuffix c ".json" = false →
  sfx ∈ [EmptyString; ".json"; "/.json"] →
  let p := strings.Repeat "/" a +:+ (c +:+ sfx) +:+ strings.Repeat "/" b in
  sanitizePath p = c
  ∧ url (Child fb p h).1 = url fb +:+ "/" +:+ p
  ∧ url (Child fb (sanitizePath p) h).1 = url fb +:+ "/" +:+ c.
Proof.
  intros Hpre Hsuf Hjson Hsfx p.
  assert (E : sanitizePath p = c) by (by apply sanitizePath_variant).
  by rewrite !Child_url, E.
Qed.

Lemma sanitizePath_Child_witness :
  sanitizePath "/users/.json//" = "users"
  ∧ url (Child (New "example.com" None empty_heap).1 (sanitizePath "/users/.json//")
               (New "example.com" None empty_heap).2).1
    = "https://example.com/users".
Proof.
  pose proof (sanitizePath_Child (New "example.com" None empty_heap).1
                (New "example.com" None empty_heap).2 "users" "/.json" 1 2) as H.
  destruct H as (H1 & _ & H3);
    [reflexivity | reflexivity | reflexivity | apply list_elem_of_In; simpl; tauto |].
  split; [exact H1 | exact H3].
Defined.

(** C3 as stated fails: [Child] appends the segment as it is given, so two
    spellings of one segment give two addresses; and [sanitizePath] itself
    keeps a slash when two of them stand before [.json]. *)
Lemma sanitizePath_Child_counterexample :
  url (Child (New "example.com" None empty_heap).1 "/users/"
             (New "example.com" None empty_heap).2).1
    = "https://example.com//users/"
  ∧ url (Child (New "example.com" None empty_heap).1 "users"
               (New "example.com" None empty_heap).2).1
    = "https://example.com/users"
  ∧ url (Child (New "example.com" None empty_heap).1 "/users/"
               (New "example.com" None empty_heap).2).1
    ≠ url (Child (New "example.com" None empty_heap).1 "users"
                 (New "example.com" None empty_heap).2).1
  ∧ sanitizePath "users//.json" = "users/"
  ∧ sanitizePath "users//.json" ≠ sanitizePath "users".
Proof. rewrite !Child_url, !New_url. repeat split; discriminate. Qed.

(** ** Query parameters of parent and child *)

Lemma heap_wf_empty : heap_wf empty_heap.
Proof. intros m vm k s H. simpl in H. by rewrite lookup_empty in H. Qed.

Lemma copy_loop (p : loc) (h0 : heap) (acc m : gmap string slice) :
  h_values h0 !! p = Some acc →
  map_fold (λ k v h', values_assign h' p k v) h0 m
  = mkHeap (<[p := m ∪ acc]> (h_values h0)) (h_arrays h0) (h_events h0) (h_chans h0).
Proof.
  intros Hp.
  apply (map_fold_weak_ind
           (λ r m, r = mkHeap (<[p := m ∪ acc]> (h_values h0)) (h_arrays h0)
                              (h_events h0) (h_chans h0))).
  - rewrite (left_id_L ∅ (∪)), insert_id by done. by destruct h0.
  - intros i x m' r _ ->. unfold values_assign. simpl.
    by rewrite alter_insert_eq, insert_union_l.
Qed.

Lemma values_at_alloc (h : heap) (m : loc) :
  default ∅ (<[fresh (dom (h_values h)) := ∅]> (h_values h) !! m) = values_at h m.
Proof.
  unfold values_at.
  destruct (decide (fresh (dom (h_values h)) = m)) as [<- | Hne].
  - rewrite lookup_insert_eq.
    pose proof (is_fresh (dom (h_values h))) as Hf.
    apply not_elem_of_dom in Hf. by rewrite Hf.
  - by rewrite lookup_insert_ne.
Qed.

Lemma copy_heap (fb : Firebase) (h : heap) :
  params (copy fb h).1 = fresh (dom (h_values h))
  ∧ h_values (copy fb h).2
    = <[fresh (dom (h_values h)) := values_at h (params fb)]> (h_values h)
  ∧ h_arrays (copy fb h).2 = h_arrays h.
Proof.
  unfold copy, alloc_values, alloc_chan, alloc_events. simpl.
  split; [done|].
  rewrite (copy_loop _ _ ∅) by (simpl; apply lookup_insert_eq). simpl.
  split; [|done].
  rewrite insert_insert_eq, (right_id_L ∅ (∪)).
  unfold values_at at 1. simpl. by rewrite values_at_alloc.
Qed.

Lemma Child_heap (fb : Firebase) (child : string) (h : heap) :
  params (Child fb child h).1 = params (copy fb h).1
  ∧ (Child fb child h).2 = (copy fb h).2.
Proof. unfold Child. by destruct (copy fb h). Qed.

Lemma heap_wf_copy (fb : Firebase) (h : heap) :
  heap_wf h → heap_wf (copy fb h).2.
Proof.
  intros Hwf m vm k s Hm Hk.
  destruct (copy_heap fb h) as (_ & Hv & Ha). rewrite Hv in Hm. rewrite Ha.
  destruct (decide (fresh (dom (h_values h)) = m)) as [<- | Hne].
  - rewrite lookup_insert_eq in Hm. injection Hm as <-.
    unfold values_at in Hk.
    destruct (h_values h !! params fb) as [vm|] eqn:E; simpl in Hk.
    + by eapply Hwf.
    + by rewrite lookup_empty in Hk.
  - rewrite lookup_insert_ne in Hm by done. by eapply Hwf.
Qed.

(** Reading a slice does not depend on arrays allocated later. *)
Lemma slice_read_alloc (h : heap) (a : list string) (s : slice) :
  s_ptr s ∈ dom (h_arrays h) →
  slice_read (alloc_array a h).2 s = slice_read h s.
Proof.
  intros Hs. unfold slice_read, alloc_array. simpl.
  rewrite lookup_insert_ne; [done|].
  intros E. rewrite <- E in Hs. by apply is_fresh in Hs.
Qed.

Lemma heap_wf_mutate (v : loc) (h : heap) (mu : mutation) :
  heap_wf h → heap_wf (mutate v h mu).
Proof.
  intros Hwf. destruct mu as [key value | key].
  - intros m' vm k s Hm Hk. simpl in *.
    rewrite dom_insert_L.
    destruct (decide (v = m')) as [<- | Hvm].
    + rewrite lookup_alter_eq in Hm.
      destruct (h_values h !! v) as [vm0|] eqn:E; simpl in Hm; [|done].
      injection Hm as <-.
      destruct (decide (key = k)) as [<- | Hk'].
      * rewrite lookup_insert_eq in Hk. injection Hk as <-. simpl. set_solver.
      * rewrite lookup_insert_ne in Hk by done.
        apply elem_of_union_r. by eapply Hwf.
    + rewrite lookup_alter_ne in Hm by done.
      apply elem_of_union_r. by eapply Hwf.
  - intros m' vm k s Hm Hk. simpl in *.
    destruct (decide (v = m')) as [<- | Hvm].
    + rewrite lookup_alter_eq in Hm.
      destruct (h_values h !! v) as [vm0|] eqn:E; simpl in Hm; [|done].
      injection Hm as <-. apply lookup_delete_Some in Hk as [_ Hk].
      by eapply Hwf.
    + rewrite lookup_alter_ne in Hm by done. by eapply Hwf.
Qed.

(** A change of one key of the map [v] is not seen through another map. *)
Lemma mutate_frame (v m : loc) (h : heap) (mu : mutation) :
  heap_wf h → v ≠ m → values_read (mutate v h mu) m = values_read h m.
Proof.
  intros Hwf Hne. destruct mu as [key value | key].
  - unfold mutate, Values.Set_, values_read.
    change (let (s, h1) := alloc_array [value] h in values_assign h1 v key s)
      with (values_assign (alloc_array [value] h).2 v key (alloc_array [value] h).1).
    assert (Hat : values_at (values_assign (alloc_array [value] h).2 v key
                                           (alloc_array [value] h).1) m
                  = values_at h m).
    { unfold values_at, values_assign. simpl. by rewrite lookup_alter_ne. }
    rewrite Hat. apply map_fmap_ext. intros k s Hk.
    unfold values_at in Hk.
    destruct (h_values h !! m) as [vm|] eqn:E; simpl in Hk;
      [|by rewrite lookup_empty in Hk].
    unfold values_assign, slice_read. simpl.
    rewrite lookup_insert_ne; [done|].
    intros E'. pose proof (Hwf m vm k s E Hk) as Hin.
    rewrite <- E' in Hin. by apply is_fresh in Hin.
  - unfold mutate, Values.Del, values_delete, values_read, values_at, slice_read.
    simpl. by rewrite lookup_alter_ne.
Qed.

Lemma heap_wf_mutate_all (v : loc) (mus : list mutation) (h : heap) :
  heap_wf h → heap_wf (mutate_all v h mus).
Proof.
  revert h. induction mus as [|mu mus IH]; intros h Hwf; [done|].
  apply (IH (mutate v h mu)). by apply heap_wf_mutate.
Qed.

Lemma mutate_all_frame (v m : loc) (mus : list mutation) (h : heap) :
  heap_wf h → v ≠ m → values_read (mutate_all v h mus) m = values_read h m.
Proof.
  revert h. induction mus as [|mu mus IH]; intros h Hwf Hne; [done|].
  unfold mutate_all in *. simpl.
  rewrite IH by (by try apply heap_wf_mutate). by apply mutate_frame.
Qed.

Lemma heap_wf_New (u : string) (cl : option Client) (h : heap) :
  heap_wf h → heap_wf (New u cl h).2.
Proof.
  intros Hwf m vm k s Hm Hk.
  unfold New, alloc_values, alloc_chan, alloc_events in *. simpl in *.
  destruct (decide (fresh (dom (h_values h)) = m)) as [<- | Hne].
  - rewrite lookup_insert_eq in Hm. injection Hm as <-.
    by rewrite lookup_empty in Hk.
  - rewrite lookup_insert_ne in Hm by done. by eapply Hwf.
Qed.

Lemma New_params_allocated (u : string) (cl : option Client) (h : heap) :
  params (New u cl h).1 ∈ dom (h_values (New u cl h).2).
Proof.
  unfold New, alloc_values, alloc_chan, alloc_events. simpl.
  rewrite dom_insert_L. set_solver.
Qed.

(** C4, amended: the child gets a map of its own that holds the parent's
    entries.  Setting or deleting keys of the child's parameters (what
    [Values.Set] and [Values.Del] do), however often, leaves what the parent's
    parameters read unchanged, and the same with the roles exchanged.  Nothing
    is said here of a write into a slice that both maps hold. *)
Theorem Child_params_independent (fb : Firebase) (child : string) (h : heap)
        (mus : list mutation) :
  heap_wf h →
  params fb ∈ dom (h_values h) →
  let c := (Child fb child h).1 in
  let h1 := (Child fb child h).2 in
  params c ≠ params fb
  ∧ values_read h1 (params c) = values_read h (params fb)
  ∧ values_read h1 (params fb) = values_read h (params fb)
  ∧ values_read (mutate_all (params c) h1 mus) (params fb) = values_read h1 (params fb)
  ∧ values_read (mutate_all (params fb) h1 mus) (params c) = values_read h1 (params c).
Proof.
  intros Hwf Hfb c h1. subst c h1.
  destruct (Child_heap fb child h) as [-> ->].
  destruct (copy_heap fb h) as (Hp & Hv & Ha). rewrite Hp.
  assert (Hne : fresh (dom (h_values h)) ≠ params fb).
  { intros E. rewrite <- E in Hfb. by apply is_fresh in Hfb. }
  assert (Hread : ∀ vm : gmap string slice,
             slice_read (copy fb h).2 <$> vm = slice_read h <$> vm).
  { intros vm. apply map_fmap_ext. intros k s _. unfold slice_read. by rewrite Ha. }
  pose proof (heap_wf_copy fb h Hwf) as Hwf'.
  split; [done|]. split; [|split; [|split]].
  - unfold values_read. rewrite Hread. f_equal.
    unfold values_at at 1. by rewrite Hv, lookup_insert_eq.
  - unfold values_read. rewrite Hread. f_equal.
    unfold values_at at 1. by rewrite Hv, lookup_insert_ne.
  - by apply mutate_all_frame.
  - by apply mutate_all_frame.
Qed.

Lemma Child_params_independent_witness :
  values_read (Child parent_ref "users" parent_heap).2 (params parent_ref) !! "auth"
    = Some ["token"]
  ∧ values_read
      (mutate_all (params (Child parent_ref "users" parent_heap).1)
                  (Child parent_ref "users" parent_heap).2
                  [MSet "auth" "other"; MDel "shallow"])
      (params parent_ref)
    = values_read (Child parent_ref "users" parent_heap).2 (params parent_ref).
Proof.
  assert (Hwf : heap_wf parent_heap).
  { apply (heap_wf_mutate _ _ (MSet "auth" "token")), heap_wf_New, heap_wf_empty. }
  assert (Hin : params parent_ref ∈ dom (h_values parent_heap)).
  { vm_compute. reflexivity. }
  split; [vm_compute; reflexivity|].
  apply (Child_params_independent parent_ref "users" parent_heap
           [MSet "auth" "other"; MDel "shallow"] Hwf Hin).
Defined.

(** C4 as stated fails: the copy is shallow.  The child's map holds the
    parent's slice for [auth], so an assignment through it shows in the
    parent, and an assignment through the parent's shows in the child. *)
Lemma Child_params_independent_counterexample :
  values_read child_heap (params parent_ref) = {["auth" := ["token"]]}
  ∧ values_read child_heap (params child_ref) = {["auth" := ["token"]]}
  ∧ (λ h2, values_read h2 (params parent_ref))
      <$> Values.store_at child_heap (params child_ref) "auth" 0 "other"
    = Some {["auth" := ["other"]]}
  ∧ (λ h2, values_read h2 (params child_ref))
      <$> Values.store_at child_heap (params parent_ref) "auth" 0 "other"
    = Some {["auth" := ["other"]]}
  ∧ (λ h2, values_read h2 (params parent_ref))
      <$> Values.store_at child_heap (params child_ref) "auth" 0 "other"
    ≠ Some (values_read child_heap (params parent_ref))
  ∧ (λ h2, values_read h2 (params child_ref))
      <$> Values.store_at child_heap (params parent_ref) "auth" 0 "other"
    ≠ Some (values_read child_heap (params child_ref)).
Proof. vm_compute. repeat split; intros [=]. Qed.

(** ** The request executor *)

Lemma quot_200 (code : Z) : (Z.quot code 200 =? 1)%Z = true ↔ (200 ≤ code < 400)%Z.
Proof.
  rewrite Z.eqb_eq.
  pose proof (Z.quot_rem' code 200) as Hqr.
  split.
  - intros Hq. rewrite Hq in Hqr.
    pose proof (Z.rem_bound_abs code 200 ltac:(lia)) as Habs.
    assert (Hnn : (0 ≤ code)%Z) by lia.
    pose proof (Z.rem_bound_pos code 200 Hnn ltac:(lia)). lia.
  - intros Hr.
    pose proof (Z.rem_bound_pos code 200 ltac:(lia) ltac:(lia)). lia.
Qed.


Section ExecutorFacts.

Variable World : Type.
Variable http_NewRequest : string → string → list byte → result Request.
Variable http_Client_Do : Client → Request → World → result Response * World.

Local Abbreviation doRequest' := (doRequest World http_NewRequest http_Client_Do).
Local Abbreviation makeRequest' := (makeRequest http_NewRequest).

(** C1, amended: once the response body has been read, [doRequest] takes a
    status code from 200 to 399 (those with [StatusCode/200 == 1]) as
    success and returns the body as it was read; any other code gives a
    failure, with no body, whose error text is the bytes of the body. *)
Theorem doRequest_status (h : heap) (fb : Firebase) (method : string)
        (body : list byte) (w w' : World) (req : Request) (resp : Response)
        (respBody : list byte) :
  makeRequest' h fb method body = Ok req →
  http_Client_Do (client fb) req w = (Ok resp, w') →
  ReadAll_Body resp = Ok respBody →
  ((200 ≤ StatusCode resp < 400)%Z →
   doRequest' h fb method body w = (Ok respBody, w'))
  ∧ (¬ (200 ≤ StatusCode resp < 400)%Z →
     doRequest' h fb method body w
     = (Err (errorString (string_of_list_byte respBody)), w')
     ∧ list_byte_of_string (Error (errorString (string_of_list_byte respBody)))
       = respBody).
Proof.
  intros Hreq Hdo Hbody. unfold doRequest.
  rewrite Hreq, Hdo, Hbody.
  destruct (Z.quot (StatusCode resp) 200 =? 1)%Z eqn:E.
  - apply quot_200 in E. split; [done | tauto].
  - split.
    + intros Hr. apply quot_200 in Hr. congruence.
    + intros _. split; [done|]. simpl.
      apply list_byte_of_string_of_list_byte.
Qed.


End ExecutorFacts.

Lemma doRequest_status_witness :
  doRequest unit plain_NewRequest (canned_Do (Ok (mkResponse 403 (Ok refused))))
            parent_heap parent_ref "GET" [] tt
  = (Err (errorString "Permission denied"), tt)
  ∧ doRequest unit plain_NewRequest (canned_Do (Ok (mkResponse 200 (Ok refused))))
              parent_heap parent_ref "GET" [] tt
    = (Ok refused, tt).
Proof.
  split.
  - apply (doRequest_status unit plain_NewRequest
             (canned_Do (Ok (mkResponse 403 (Ok refused))))
             parent_heap parent_ref "GET" [] tt tt
             (mkRequest "GET" (Firebase_String parent_heap parent_ref) ∅ [])
             (mkResponse 403 (Ok refused)) refused);
      [reflexivity | reflexivity | reflexivity | simpl; lia].
  - apply (doRequest_status unit plain_NewRequest
             (canned_Do (Ok (mkResponse 200 (Ok refused))))
             parent_heap parent_ref "GET" [] tt tt
             (mkRequest "GET" (Firebase_String parent_heap parent_ref) ∅ [])
             (mkResponse 200 (Ok refused)) refused);
      [reflexivity | reflexivity | reflexivity | simpl; lia].
Defined.

(** C1 as stated fails: a response with status 300, outside 200-299, is
    returned as a success with its body. *)
Lemma doRequest_status_counterexample :
  ¬ (200 ≤ 300 ≤ 299)%Z
  ∧ doRequest unit plain_NewRequest (canned_Do (Ok (mkResponse 300 (Ok choices))))
              parent_heap parent_ref "GET" [] tt
    = (Ok choices, tt)
  ∧ doRequest unit plain_NewRequest (canned_Do (Ok (mkResponse 300 (Ok choices))))
              parent_heap parent_ref "GET" [] tt
    ≠ (Err (errorString "Multiple Choices"), tt).
Proof. split; [lia|]. split; [reflexivity | discriminate]. Qed.


(** ** The redirect policy *)

(** The loop of [redirectPreserveHeaders] lays the first request's header
    over the header of the new request. *)
Lemma header_loop (hdr first : gmap string (list string)) :
  map_fold (λ key val (h : gmap string (list string)), <[key := val]> h) hdr first
  = first ∪ hdr.
Proof.
  apply (map_fold_weak_ind (λ r m, r = m ∪ hdr)).
  - by rewrite (left_id_L ∅ (∪)).
  - intros i x m r _ ->. by rewrite insert_union_l.
Qed.

Lemma redirect_within_limit (req first : Request) (rest : list Request) :
  (length (first :: rest) ≤ defaultRedirectLimit)%nat →
  redirectPreserveHeaders req (first :: rest)
  = (mkRequest (Method req) (URL req) (Header first ∪ Header req) (Body req), None).
Proof.
  intros Hlen. unfold redirectPreserveHeaders.
  destruct (defaultRedirectLimit <? length (first :: rest))%nat eqn:E.
  - apply Nat.ltb_lt in E. lia.
  - by rewrite header_loop.
Qed.

Lemma redirect_over_limit (req : Request) (via : list Request) :
  (defaultRedirectLimit < length via)%nat →
  redirectPreserveHeaders req via
  = (req, Some (errorString (itoa (length via) +:+ " consecutive requests(redirects)"))).
Proof.
  intros Hlen. unfold redirectPreserveHeaders.
  destruct via as [|first rest]; [simpl in Hlen; lia|].
  apply Nat.ltb_lt in Hlen. by rewrite Hlen.
Qed.

Lemma follow_redirects_inv (orig : Request) (upcoming tail : list Request) :
  carries orig (orig :: tail) →
  (length (orig :: tail) ≤ 31)%nat →
  let out := follow_redirects redirectPreserveHeaders (orig :: tail) upcoming in
  carries orig out.1
  ∧ ((length (orig :: tail) + length upcoming ≤ 31)%nat →
     out.2 = None ∧ length out.1 = (length (orig :: tail) + length upcoming)%nat)
  ∧ ((31 < length (orig :: tail) + length upcoming)%nat →
     out.2 = Some (errorString "31 consecutive requests(redirects)")
     ∧ length out.1 = 31%nat).
Proof.
  revert tail. induction upcoming as [|req rest IH]; intros tail Hc Hlen.
  - simpl. split; [done|]. split; [intros _; split; [done | lia] | simpl in Hlen; lia].
  - cbn [follow_redirects].
    destruct (decide (length (orig :: tail) ≤ 30)%nat) as [Hok | Hover].
    + rewrite redirect_within_limit by (unfold defaultRedirectLimit; lia).
      specialize (IH (tail ++ [mkRequest (Method req) (URL req)
                                         (Header orig ∪ Header req) (Body req)])%list).
      change ((orig :: tail) ++ ?x)%list with (orig :: (tail ++ x))%list.
      destruct IH as (IH1 & IH2 & IH3).
      * intros r Hr. rewrite app_comm_cons in Hr.
        apply elem_of_app in Hr as [Hr | Hr]; [by apply Hc|].
        apply list_elem_of_singleton in Hr as ->. apply map_union_subseteq_l.
      * simpl. rewrite length_app. simpl in *. lia.
      * split; [done|].
        simpl length in *. rewrite length_app in *. simpl length in *.
        split; intros H.
        -- destruct IH2 as [-> ->]; [lia|]. split; [done | lia].
        -- apply IH3. lia.
    + assert (Hl : length (orig :: tail) = 31%nat) by lia.
      rewrite redirect_over_limit by (unfold defaultRedirectLimit; lia).
      rewrite Hl. simpl.
      split; [done|]. split; [lia|]. intros _. split; [done | simpl in Hl; lia].
Qed.

(** C6: when the policy is asked about a redirect after at most 30 requests
    it puts every header entry of the first request on the new request and
    raises no error; asked after more than 30 it returns an error and leaves
    the request alone.  So along a chain every request carries the original
    header, a chain of up to 30 redirects is followed to its end, and a
    longer one ends with the error once 31 requests have been made. *)
Theorem redirectPreserveHeaders_chain (orig req : Request) (via upcoming : list Request) :
  ((length (orig :: via) ≤ 30)%nat →
   ∃ req', redirectPreserveHeaders req (orig :: via) = (req', None)
           ∧ Header orig ⊆ Header req'
           ∧ (∀ k, Header orig !! k = None → Header req' !! k = Header req !! k))
  ∧ ((30 < length (orig :: via))%nat →
     ∃ e, redirectPreserveHeaders req (orig :: via) = (req, Some e))
  ∧ carries orig (follow_redirects redirectPreserveHeaders [orig] upcoming).1
  ∧ ((length upcoming ≤ 30)%nat →
     (follow_redirects redirectPreserveHeaders [orig] upcoming).2 = None
     ∧ length (follow_redirects redirectPreserveHeaders [orig] upcoming).1
       = S (length upcoming))
  ∧ ((30 < length upcoming)%nat →
     is_Some (follow_redirects redirectPreserveHeaders [orig] upcoming).2
     ∧ length (follow_redirects redirectPreserveHeaders [orig] upcoming).1 = 31%nat).
Proof.
  split; [|split].
  - intros Hlen. eexists. rewrite redirect_within_limit by done.
    split; [done|]. simpl. split; [apply map_union_subseteq_l|].
    intros k Hk. rewrite lookup_union_r; done.
  - intros Hlen. eexists. by apply redirect_over_limit.
  - destruct (follow_redirects_inv orig upcoming []) as (H1 & H2 & H3).
    + intros r Hr. apply list_elem_of_singleton in Hr as ->. done.
    + simpl. lia.
    + split; [done|]. simpl length in *. split.
      * intros H. apply H2. lia.
      * intros H. destruct H3 as [-> ->]; [lia|]. split; [by eexists | done].
Qed.

Lemma redirectPreserveHeaders_chain_witness :
  (∃ req', redirectPreserveHeaders next_req [orig_req] = (req', None)
           ∧ Header orig_req ⊆ Header req'
           ∧ (∀ k, Header orig_req !! k = None → Header req' !! k = Header next_req !! k))
  ∧ (is_Some (follow_redirects redirectPreserveHeaders [orig_req]
                               (replicate 31 next_req)).2
     ∧ length (follow_redirects redirectPreserveHeaders [orig_req]
                                (replicate 31 next_req)).1 = 31%nat).
Proof.
  split.
  - apply (redirectPreserveHeaders_chain orig_req next_req [] []). simpl. lia.
  - apply (redirectPreserveHeaders_chain orig_req next_req [] (replicate 31 next_req)).
    simpl. lia.
Defined.

Example redirect_31st_refused :
  (follow_redirects redirectPreserveHeaders [orig_req] (replicate 31 next_req)).2
  = Some (errorString "31 consecutive requests(redirects)").
Proof. vm_compute. reflexivity. Qed.

Example redirect_30_followed :
  (follow_redirects redirectPreserveHeaders [orig_req] (replicate 30 next_req)).2 = None.
Proof. vm_compute. reflexivity. Qed.

(** ** Push *)

Section PushFacts.

Variable World : Type.
Variable value : Type.
Variable json_Marshal : value → result (list byte).
Variable json_Unmarshal : list byte → result (gmap string string).
Variable doRequest : PushRef.Firebase → string → list byte → World
                     → result (list byte) * World.

Local Abbreviation Push' :=
  (PushRef.Push World value json_Marshal json_Unmarshal doRequest).


(** C10: when the value cannot be serialised, [Push] returns that error
    and no reference, and the world is as it was: whatever [doRequest]
    would do, it is not called. *)
Theorem Push_marshal_error (fb : PushRef.Firebase) (v : value) (w : World) (e : error) :
  json_Marshal v = Err e →
  Push' fb v w = (Err e, w).
Proof. unfold PushRef.Push. by intros ->. Qed.

End PushFacts.


Lemma Push_marshal_error_witness :
  PushRef.Push (list (string * list byte)) (option string)
               toy_Marshal toy_Unmarshal toy_doRequest toy_ref None []
  = (Err (errorString "json: unsupported type"), []).
Proof.
  apply (Push_marshal_error (list (string * list byte)) (option string)
           toy_Marshal toy_Unmarshal toy_doRequest toy_ref None []
           (errorString "json: unsupported type")).
  reflexivity.
Defined.

(** ** Streaming sessions *)

Lemma Streaming_step_inv (s : Streaming.state) (o : Streaming.op) :
  Streaming.readers s = (if Streaming.watching s then 1 else 0)%nat →
  Streaming.readers (Streaming.step s o)
  = (if Streaming.watching (Streaming.step s o) then 1 else 0)%nat.
Proof.
  destruct s as [[] n], o; simpl; intros ->; reflexivity.
Qed.

Lemma Streaming_foldl_inv (os : list Streaming.op) (s : Streaming.state) :
  Streaming.readers s = (if Streaming.watching s then 1 else 0)%nat →
  Streaming.readers (foldl Streaming.step s os)
  = (if Streaming.watching (foldl Streaming.step s os) then 1 else 0)%nat.
Proof.
  revert s. induction os as [|o os IH]; intros s Hs; [done|].
  simpl. apply IH. by apply Streaming_step_inv.
Qed.

(** C8: after any sequence of start, stop and failure steps on a reference
    there is at most one decode loop, and there is one exactly when the
    session is active; a start on an active session changes nothing and
    reports that a session is already active, so it adds no second loop. *)
Theorem Streaming_one_session (os : list Streaming.op) :
  (Streaming.readers (Streaming.run os) ≤ 1)%nat
  ∧ Streaming.readers (Streaming.run os)
    = (if Streaming.watching (Streaming.run os) then 1 else 0)%nat
  ∧ (Streaming.watching (Streaming.run os) = true →
     Streaming.Start (Streaming.run os) = (Streaming.run os, Streaming.AlreadyStreaming))
  ∧ (Streaming.readers (Streaming.run (os ++ [Streaming.OpStart])) ≤ 1)%nat.
Proof.
  assert (Hinv : ∀ os', Streaming.readers (Streaming.run os')
                 = (if Streaming.watching (Streaming.run os') then 1 else 0)%nat)
    by (intros os'; by apply Streaming_foldl_inv).
  split; [|split; [|split]].
  - rewrite Hinv. destruct (Streaming.watching _); lia.
  - apply Hinv.
  - intros Hw. unfold Streaming.Start. by rewrite Hw.
  - rewrite Hinv. destruct (Streaming.watching _); lia.
Qed.

Lemma Streaming_one_session_witness :
  Streaming.Start (Streaming.run [Streaming.OpStart])
  = (Streaming.run [Streaming.OpStart], Streaming.AlreadyStreaming).
Proof.
  apply (Streaming_one_session [Streaming.OpStart]). reflexivity.
Defined.

(** * Further properties of the address functions *)

Lemma substring_split (s : string) (k : nat) :
  (k ≤ String.length s)%nat →
  s = String.substring 0 k s +:+ String.substring k (String.length s - k) s.
Proof.
  revert k. induction s as [|a s IH]; intros k Hk.
  - simpl in Hk. by replace k with 0%nat by lia.
  - destruct k as [|k].
    + simpl. by rewrite substring_all.
    + simpl in Hk. simpl. rewrite string_app_cons. f_equal. apply IH. lia.
Qed.

Lemma HasSuffix_inv (s t : string) :
  strings.HasSuffix s t = true → ∃ r, s = r +:+ t.
Proof.
  unfold strings.HasSuffix, strings.slice_from.
  intros H. apply andb_true_iff in H as [Hlen Heq].
  apply Nat.leb_le in Hlen. apply String.eqb_eq in Heq.
  exists (String.substring 0 (String.length s - String.length t) s).
  pose proof (substring_split s (String.length s - String.length t)) as Hsplit.
  rewrite Heq in Hsplit. apply Hsplit. lia.
Qed.

(** [TrimSuffix] gives back the string, or the string less the suffix. *)
Lemma TrimSuffix_decomp (s t : string) :
  (strings.HasSuffix s t = false ∧ strings.TrimSuffix s t = s)
  ∨ (strings.HasSuffix s t = true ∧ s = strings.TrimSuffix s t +:+ t).
Proof.
  destruct (strings.HasSuffix s t) eqn:E.
  - right. split; [done|]. destruct (HasSuffix_inv s t E) as [r ->].
    by rewrite TrimSuffix_app.
  - left. split; [done|]. by apply TrimSuffix_none.
Qed.

Lemma trimLeftByte_decomp (s : string) (c : ascii) :
  ∃ n, s = strings.Repeat c n +:+ strings.trimLeftByte s c.
Proof.
  induction s as [|a s [n IH]]; [by exists 0%nat|]. simpl.
  destruct (Ascii.eqb a c) eqn:E.
  - apply Ascii.eqb_eq in E as ->. exists (S n). simpl.
    by rewrite string_app_cons, <- IH.
  - by exists 0%nat.
Qed.

Lemma trimRightByte_decomp (s : string) (c : ascii) :
  ∃ n, s = strings.trimRightByte s c +:+ strings.Repeat c n.
Proof.
  induction s as [|a s [n IH]]; [by exists 0%nat|]. simpl.
  destruct (strings.trimRightByte s c) as [|b r] eqn:Er.
  - rewrite string_app_nil_l in IH. destruct (Ascii.eqb a c) eqn:E.
    + apply Ascii.eqb_eq in E as ->. exists (S n). simpl. by rewrite <- IH.
    + exists n. by rewrite string_app_cons, string_app_nil_l, <- IH.
  - exists n. by rewrite !string_app_cons, <- string_app_cons, <- IH.
Qed.

Lemma trimLeftByte_no_lead (s : string) (c : ascii) :
  strings.HasPrefix (strings.trimLeftByte s c) (String c EmptyString) = false.
Proof.
  induction s as [|a s IH]; [done|]. simpl.
  destruct (Ascii.eqb a c) eqn:E; [done|]. by rewrite HasPrefix_byte_cons.
Qed.

Lemma trimRightByte_no_trail (s : string) (c : ascii) :
  strings.HasSuffix (strings.trimRightByte s c) (String c EmptyString) = false.
Proof.
  induction s as [|a s IH]; [done|]. simpl.
  destruct (strings.trimRightByte s c) as [|b r] eqn:Er.
  - destruct (Ascii.eqb a c) eqn:E; [done|]. by rewrite HasSuffix_byte_single.
  - by rewrite HasSuffix_byte_cons.
Qed.

Lemma trimLeftByte_keeps_no_trail (s : string) (c : ascii) :
  strings.HasSuffix s (String c EmptyString) = false →
  strings.HasSuffix (strings.trimLeftByte s c) (String c EmptyString) = false.
Proof.
  induction s as [|a s IH]; [done|]. intros H. simpl.
  destruct (Ascii.eqb a c) eqn:E; [|done].
  destruct s as [|b s]; [done|].
  apply IH. by rewrite HasSuffix_byte_cons in H.
Qed.

Lemma TrimSuffix_keeps_no_lead (s t : string) (c : ascii) :
  strings.HasPrefix s (String c EmptyString) = false →
  strings.HasPrefix (strings.TrimSuffix s t) (String c EmptyString) = false.
Proof.
  intros H. unfold strings.TrimSuffix.
  destruct (strings.HasSuffix s t); [|done].
  unfold strings.slice_to.
  destruct s as [|a s]; [by destruct (String.length EmptyString - String.length t)%nat|].
  rewrite HasPrefix_byte_cons in H.
  destruct (String.length (String a s) - String.length t)%nat as [|n]; [done|].
  change (String.substring 0 (S n) (String a s))
    with (String a (String.substring 0 n s)).
  by rewrite HasPrefix_byte_cons.
Qed.

(** X1: [sanitizeURL] never rewrites the address itself: its result is the
    address, with [https://] in front or not, less one trailing slash or
    none. *)
Theorem sanitizeURL_keeps_address (u : string) :
  ∃ pre tail,
    pre ∈ [EmptyString; "https://"]
    ∧ tail ∈ [EmptyString; "/"]
    ∧ sanitizeURL u +:+ tail = pre +:+ u.
Proof.
  rewrite sanitizeURL_unfold.
  destruct (negb (strings.HasPrefix u "https://") && negb (strings.HasPrefix u "http://")).
  - exists "https://".
    destruct (TrimSuffix_decomp ("https://" +:+ u) "/") as [[_ E] | [_ E]].
    + exists EmptyString. rewrite E, string_app_empty_r. set_solver.
    + exists "/". rewrite <- E. set_solver.
  - exists EmptyString.
    destruct (TrimSuffix_decomp u "/") as [[_ E] | [_ E]].
    + exists EmptyString. rewrite E, string_app_empty_r. set_solver.
    + exists "/". rewrite <- E. set_solver.
Qed.

(** X2: apart from the three degenerate inputs (the empty address and a
    bare [https://] or [http://]), the normalised address always begins with
    [https://] or [http://]. *)
Theorem sanitizeURL_has_scheme (u : string) :
  u ≠ EmptyString → u ≠ "https://" → u ≠ "http://" →
  strings.HasPrefix (sanitizeURL u) "https://" = true
  ∨ strings.HasPrefix (sanitizeURL u) "http://" = true.
Proof.
  intros H0 H1 H2.
  destruct (strings.HasPrefix u "https://") eqn:Es.
  - destruct (HasPrefix_inv _ _ Es) as [r ->]. left.
    rewrite sanitizeURL_https; [apply HasPrefix_app|].
    intros ->. by rewrite string_app_empty_r in H1.
  - destruct (strings.HasPrefix u "http://") eqn:Ep.
    + destruct (HasPrefix_inv _ _ Ep) as [r ->]. right.
      rewrite sanitizeURL_unfold, Es, HasPrefix_app. simpl negb. simpl andb. cbv iota.
      rewrite TrimSuffix_byte_app; [apply HasPrefix_app|].
      intros ->. by rewrite string_app_empty_r in H2.
    + left. rewrite sanitizeURL_bare by done. apply HasPrefix_app.
Qed.

Lemma sanitizeURL_has_scheme_witness :
  strings.HasPrefix (sanitizeURL "/") "https://" = true
  ∨ strings.HasPrefix (sanitizeURL "/") "http://" = true.
Proof.
  apply (sanitizeURL_has_scheme "/"); discriminate.
Defined.

(** X3: a sanitised path segment never begins with a slash, so appending it
    after a slash never doubles the separator at the join. *)
Theorem sanitizePath_no_leading_slash (p : string) :
  strings.HasPrefix (sanitizePath p) "/" = false.
Proof.
  unfold sanitizePath, strings.Trim.
  do 2 apply TrimSuffix_keeps_no_lead. apply trimLeftByte_no_lead.
Qed.

(** X4: [sanitizePath] only removes: the segment is some slashes, then the
    sanitised segment, then nothing, [.json] or [/.json], then some slashes;
    no byte is changed or added. *)
Theorem sanitizePath_removes_only (p : string) :
  ∃ a b post,
    post ∈ [EmptyString; ".json"; "/.json"]
    ∧ p = strings.Repeat "/" a +:+ (sanitizePath p +:+ post) +:+ strings.Repeat "/" b.
Proof.
  unfold sanitizePath, strings.Trim.
  destruct (trimRightByte_decomp p "/") as [b Hb].
  destruct (trimLeftByte_decomp (strings.trimRightByte p "/") "/") as [a Ha].
  pose proof (trimLeftByte_keeps_no_trail _ _ (trimRightByte_no_trail p "/")) as Hnt.
  set (s := strings.trimLeftByte (strings.trimRightByte p "/") "/") in *.
  exists a, b.
  assert (E : ∃ post, post ∈ [EmptyString; ".json"; "/.json"]
                ∧ s = strings.TrimSuffix (strings.TrimSuffix s ".json") "/" +:+ post).
  { destruct (TrimSuffix_decomp s ".json") as [[_ E1] | [_ E1]].
    - exists EmptyString. split; [set_solver|].
      by rewrite E1, TrimSuffix_none, string_app_empty_r.
    - destruct (TrimSuffix_decomp (strings.TrimSuffix s ".json") "/") as [[_ E2] | [_ E2]].
      + exists ".json". split; [set_solver|]. by rewrite E2.
      + exists "/.json". split; [set_solver|].
        rewrite E1 at 1. rewrite E2 at 1. by rewrite string_app_assoc. }
  destruct E as (post & Hpost & Es). exists post. split; [done|].
  rewrite <- Es, <- string_app_assoc, <- Ha. exact Hb.
Qed.

(** * Further properties of references and their parameters *)

Lemma Child_values (fb : Firebase) (child : string) (h : heap) :
  values_at (Child fb child h).2 (params (Child fb child h).1) = values_at h (params fb)
  ∧ values_read (Child fb child h).2 (params (Child fb child h).1)
    = values_read h (params fb)
  ∧ values_at (Child fb child h).2 (params fb) = values_at h (params fb)
  ∧ values_read (Child fb child h).2 (params fb) = values_read h (params fb).
Proof.
  destruct (Child_heap fb child h) as [-> ->].
  destruct (copy_heap fb h) as (Hp & Hv & Ha). rewrite Hp.
  assert (Hread : ∀ vm : gmap string slice,
             slice_read (copy fb h).2 <$> vm = slice_read h <$> vm).
  { intros vm. apply map_fmap_ext. intros k s _. unfold slice_read. by rewrite Ha. }
  assert (E1 : values_at (copy fb h).2 (fresh (dom (h_values h)))
               = values_at h (params fb)).
  { unfold values_at at 1. by rewrite Hv, lookup_insert_eq. }
  assert (E2 : values_at (copy fb h).2 (params fb) = values_at h (params fb)).
  { unfold values_at at 1. rewrite Hv.
    destruct (decide (fresh (dom (h_values h)) = params fb)) as [<- | Hne].
    - by rewrite lookup_insert_eq.
    - by rewrite lookup_insert_ne. }
  unfold values_read. by rewrite !Hread, E1, E2.
Qed.

(** X5: a reference just made by [New] renders as the normalised address
    followed by [/.json], without a query string, whatever client it was given
    and whatever other references the program already holds. *)
Theorem New_renders (u : string) (cl : option Client) (h : heap) :
  Firebase_String (New u cl h).2 (New u cl h).1 = sanitizeURL u +:+ "/.json".
Proof.
  unfold Firebase_String. by rewrite New_params_empty, New_url.
Qed.

Lemma Encode_single (k v : string) :
  url_pkg.Encode {[k := [v]]}
  = url_pkg.QueryEscape k +:+ "=" +:+ url_pkg.QueryEscape v.
Proof.
  unfold url_pkg.Encode. rewrite map_to_list_singleton. simpl.
  by rewrite lookup_singleton_eq.
Qed.

(** X6: once one parameter has been set on a fresh reference, it renders as
    the address, [/.json?], and the escaped key, [=], the escaped value. *)
Theorem String_after_Set (u k v : string) (cl : option Client) (h : heap) :
  Firebase_String (Values.Set_ (New u cl h).2 (params (New u cl h).1) k v)
                  (New u cl h).1
  = sanitizeURL u +:+ "/.json" +:+ "?"
    +:+ (url_pkg.QueryEscape k +:+ "=" +:+ url_pkg.QueryEscape v).
Proof.
  assert (Hat : values_at (Values.Set_ (New u cl h).2 (params (New u cl h).1) k v)
                          (params (New u cl h).1)
                = {[k := (alloc_array [v] (New u cl h).2).1]}).
  { unfold values_at, Values.Set_, values_assign, New, alloc_values, alloc_chan,
      alloc_events, alloc_array. simpl.
    by rewrite alter_insert_eq, lookup_insert_eq, insert_empty. }
  unfold Firebase_String, values_read. rewrite Hat, map_size_singleton.
  rewrite map_fmap_singleton, New_url.
  assert (Hs : slice_read (Values.Set_ (New u cl h).2 (params (New u cl h).1) k v)
                          (alloc_array [v] (New u cl h).2).1 = [v]).
  { unfold slice_read, Values.Set_, values_assign, alloc_array. simpl.
    by rewrite lookup_insert_eq. }
  rewrite Hs, Encode_single. simpl Nat.ltb. cbv iota.
  by rewrite string_app_assoc.
Qed.

(** X7: a child renders as the parent's address, a slash, the segment as
    given, [/.json], and then exactly the query string the parent has: the
    child starts with the parent's configuration. *)
Theorem Child_String (fb : Firebase) (child : string) (h : heap) :
  ∃ q,
    Firebase_String h fb = url fb +:+ "/.json" +:+ q
    ∧ Firebase_String (Child fb child h).2 (Child fb child h).1
      = url fb +:+ "/" +:+ child +:+ "/.json" +:+ q.
Proof.
  destruct (Child_values fb child h) as (E1 & E2 & _ & _).
  unfold Firebase_String. rewrite E1, E2, Child_url.
  destruct (0 <? size (values_at h (params fb)))%nat.
  - exists ("?" +:+ url_pkg.Encode (values_read h (params fb))).
    by rewrite !string_app_assoc.
  - exists EmptyString. by rewrite !string_app_empty_r, !string_app_assoc.
Qed.

(** X8: deriving a child leaves the parent as it was: the parent renders
    the same before and after. *)
Theorem Child_parent_unchanged (fb : Firebase) (child : string) (h : heap) :
  Firebase_String (Child fb child h).2 fb = Firebase_String h fb.
Proof.
  destruct (Child_values fb child h) as (_ & _ & E3 & E4).
  unfold Firebase_String. by rewrite E3, E4.
Qed.

(** X9: the parameter map, the listener map and the stop channel of a child
    are new objects: none of them existed before the call, so a child shares
    none of the three with any reference made earlier. *)
Theorem Child_fresh (fb : Firebase) (child : string) (h : heap) :
  (params (Child fb child h).1 ∉ dom (h_values h))
  ∧ (eventFuncs (Child fb child h).1 ∉ dom (h_events h))
  ∧ (stopWatching (Child fb child h).1 ∉ h_chans h).
Proof.
  assert (E : params (Child fb child h).1 = fresh (dom (h_values h))
              ∧ eventFuncs (Child fb child h).1 = fresh (dom (h_events h))
              ∧ stopWatching (Child fb child h).1 = fresh (h_chans h)).
  { unfold Child, copy, alloc_values, alloc_chan, alloc_events. by simpl. }
  destruct E as (-> & -> & ->).
  repeat split; apply is_fresh.
Qed.

Lemma values_at_mk hv ha ev ch (m : loc) :
  values_at (mkHeap hv ha ev ch) m = default ∅ (hv !! m).
Proof. reflexivity. Qed.

Lemma slice_read_mk hv ha ev ch (s : slice) :
  slice_read (mkHeap hv ha ev ch) s = take (s_len s) (default [] (ha !! s_ptr s)).
Proof. reflexivity. Qed.

(** X10: a [Set] on the child ends the sharing for that key.  After the
    child has set key [k], an assignment through the slice the child holds
    for [k] shows in the child and leaves everything the parent reads as it
    was before the child was derived. *)
Theorem Set_breaks_sharing (fb : Firebase) (child k v x : string) (h : heap) :
  heap_wf h →
  params fb ∈ dom (h_values h) →
  ∃ h3,
    Values.store_at (Values.Set_ (Child fb child h).2 (params (Child fb child h).1) k v)
                    (params (Child fb child h).1) k 0 x = Some h3
    ∧ values_read h3 (params (Child fb child h).1) !! k = Some [x]
    ∧ values_read h3 (params fb) = values_read h (params fb).
Proof.
  intros Hwf Hfb.
  destruct (Child_heap fb child h) as [-> ->].
  destruct (copy_heap fb h) as (Hp & Hv & Ha). rewrite Hp.
  set (pc := fresh (dom (h_values h))) in *.
  assert (Hne : pc ≠ params fb).
  { intros E. rewrite <- E in Hfb. by apply is_fresh in Hfb. }
  set (l := fresh (dom (h_arrays h))).
  set (s := mkSlice l 1 1).
  assert (Hset : Values.Set_ (copy fb h).2 pc k v
                 = mkHeap (<[pc := <[k := s]> (values_at h (params fb))]> (h_values h))
                          (<[l := [v]]> (h_arrays h))
                          (h_events (copy fb h).2) (h_chans (copy fb h).2)).
  { unfold Values.Set_, alloc_array, values_assign.
    cbn [h_values h_arrays h_events h_chans].
    rewrite Hv, Ha, alter_insert_eq. done. }
  rewrite Hset. clear Hset.
  generalize (h_events (copy fb h).2), (h_chans (copy fb h).2). intros ev ch.
  exists (mkHeap (<[pc := <[k := s]> (values_at h (params fb))]> (h_values h))
                 (<[l := [x]]> (h_arrays h)) ev ch).
  split; [|split].
  - unfold Values.store_at. rewrite values_at_mk, lookup_insert_eq.
    cbn [default from_option id]. rewrite lookup_insert_eq.
    unfold slice_store. subst s. cbn [s_len s_ptr h_values h_arrays h_events h_chans].
    by rewrite alter_insert_eq.
  - unfold values_read. rewrite values_at_mk, lookup_insert_eq.
    cbn [default from_option id].
    rewrite lookup_fmap, lookup_insert_eq.
    cbn [fmap option_fmap option_map].
    rewrite slice_read_mk. subst s. cbn [s_len s_ptr].
    by rewrite lookup_insert_eq.
  - unfold values_read. rewrite values_at_mk, lookup_insert_ne by done.
    fold (values_at h (params fb)).
    apply map_fmap_ext. intros k' s' Hk'.
    rewrite slice_read_mk. unfold slice_read.
    unfold values_at in Hk'.
    destruct (h_values h !! params fb) as [vm|] eqn:E; simpl in Hk';
      [|by rewrite lookup_empty in Hk'].
    rewrite lookup_insert_ne; [done|].
    intros El. pose proof (Hwf _ _ _ _ E Hk') as Hin.
    rewrite <- El in Hin. by apply is_fresh in Hin.
Qed.

Lemma Set_breaks_sharing_witness :
  ∃ h3,
    Values.store_at (Values.Set_ child_heap (params child_ref) "auth" "mine")
                    (params child_ref) "auth" 0 "other" = Some h3
    ∧ values_read h3 (params child_ref) !! "auth" = Some ["other"]
    ∧ values_read h3 (params parent_ref) = values_read parent_heap (params parent_ref).
Proof.
  apply (Set_breaks_sharing parent_ref "users" "auth" "mine" "other" parent_heap).
  - apply (heap_wf_mutate _ _ (MSet "auth" "token")), heap_wf_New, heap_wf_empty.
  - vm_compute. reflexivity.
Defined.

(** * Further properties of the request executor *)

Section ExecutorMore.

Variable World : Type.
Variable http_NewRequest : string → string → list byte → result Request.
Variable http_Client_Do : Client → Request → World → result Response * World.

Local Abbreviation doRequest'' := (doRequest World http_NewRequest http_Client_Do).
Local Abbreviation makeRequest'' := (makeRequest http_NewRequest).

(** X11: when the request cannot be built, [doRequest] returns that error
    without calling the client: the world is as before, whatever the client
    would have done. *)
Theorem doRequest_build_error (h : heap) (fb : Firebase) (method : string)
        (body : list byte) (w : World) (e : error) :
  makeRequest'' h fb method body = Err e →
  doRequest'' h fb method body w = (Err e, w).
Proof. intros H. unfold doRequest. by rewrite H. Qed.

(** X12: an error while reading the response body is returned as it is,
    whatever the status code, and is not classified: even a network timeout
    met while reading the body comes back without [ErrTimeout] around it. *)
Theorem doRequest_body_error (h : heap) (fb : Firebase) (method : string)
        (body : list byte) (w w' : World) (req : Request) (resp : Response) (e : error) :
  makeRequest'' h fb method body = Ok req →
  http_Client_Do (client fb) req w = (Ok resp, w') →
  ReadAll_Body resp = Err e →
  doRequest'' h fb method body w = (Err e, w')
  ∧ (is_ErrTimeout e = false →
     ∀ r, doRequest'' h fb method body w = (Err r, w') → is_ErrTimeout r = false).
Proof.
  intros Hreq Hdo Hbody. unfold doRequest. rewrite Hreq, Hdo, Hbody.
  split; [done|]. by intros He r [= <-].
Qed.

(** X13: [doRequest] makes one round trip and no more: once the request is
    built, the world it leaves is the world after a single call of the
    client, on every path (success, failure status, transport error, body
    error). *)
Theorem doRequest_one_round_trip (h : heap) (fb : Firebase) (method : string)
        (body : list byte) (w : World) (req : Request) :
  makeRequest'' h fb method body = Ok req →
  (doRequest'' h fb method body w).2 = (http_Client_Do (client fb) req w).2.
Proof.
  intros Hreq. unfold doRequest. rewrite Hreq.
  destruct (http_Client_Do (client fb) req w) as [[resp | e] w'].
  - destruct (ReadAll_Body resp) as [b | e]; [|done].
    by destruct (negb (Z.quot (StatusCode resp) 200 =? 1)%Z).
  - destruct e as [s | op u inner | msg t tmp | e']; try done.
    + by destruct (implements_net_Error inner && Timeout inner).
    + by destruct (Timeout (net_Error msg t tmp)).
Qed.

(** X14: a transport error is never replaced: what [doRequest] returns is
    the error itself or [ErrTimeout] around it, and in both cases its message
    is the message of the transport error. *)
Theorem doRequest_transport_message (h : heap) (fb : Firebase) (method : string)
        (body : list byte) (w w' : World) (req : Request) (e : error) :
  makeRequest'' h fb method body = Ok req →
  http_Client_Do (client fb) req w = (Err e, w') →
  ∃ r, doRequest'' h fb method body w = (Err r, w')
       ∧ (r = e ∨ r = ErrTimeout e)
       ∧ Error r = Error e.
Proof.
  intros Hreq Hdo. unfold doRequest. rewrite Hreq, Hdo.
  destruct e as [s | op u inner | msg t tmp | e'].
  - eexists; split; [done|]. by split; [left|].
  - destruct (implements_net_Error inner && Timeout inner);
      eexists; (split; [done|]); split; auto.
  - destruct (Timeout (net_Error msg t tmp));
      eexists; (split; [done|]); split; auto.
  - eexists; split; [done|]. by split; [left|].
Qed.

(** X15: [doRequest] returns a body only when everything went well: the
    request was built, the client returned a response, its body was read in
    full without error (it is the body returned), and the status code lies
    between 200 and 399. *)
Theorem doRequest_success_inv (h : heap) (fb : Firebase) (method : string)
        (body : list byte) (w w' : World) (b : list byte) :
  doRequest'' h fb method body w = (Ok b, w') →
  ∃ req resp,
    makeRequest'' h fb method body = Ok req
    ∧ http_Client_Do (client fb) req w = (Ok resp, w')
    ∧ ReadAll_Body resp = Ok b
    ∧ (200 ≤ StatusCode resp < 400)%Z.
Proof.
  unfold doRequest. intros H.
  destruct (makeRequest http_NewRequest h fb method body) as [req | e]; [|done].
  destruct (http_Client_Do (client fb) req w) as [[resp | e] w1] eqn:Hdo.
  - destruct (ReadAll_Body resp) as [b' | e] eqn:Hb; [|done].
    destruct (Z.quot (StatusCode resp) 200 =? 1)%Z eqn:E; simpl in H; [|done].
    injection H as <- <-. exists req, resp. apply quot_200 in E.
    repeat split; try done; lia.
  - destruct e as [s | op u inner | msg t tmp | e']; try done.
    + by destruct (implements_net_Error inner && Timeout inner).
    + by destruct (Timeout (net_Error msg t tmp)).
Qed.

End ExecutorMore.

Lemma doRequest_build_error_witness :
  doRequest (list Request) rejecting_NewRequest logging_Do
            parent_heap parent_ref "GET" [] []
  = (Err (errorString "net/http: invalid method"), []).
Proof.
  apply (doRequest_build_error (list Request) rejecting_NewRequest logging_Do
           parent_heap parent_ref "GET" [] [] (errorString "net/http: invalid method")).
  reflexivity.
Defined.

Lemma doRequest_body_error_witness :
  doRequest unit plain_NewRequest (canned_Do (Ok (mkResponse 200 (Err dial_timeout))))
            parent_heap parent_ref "GET" [] tt
  = (Err dial_timeout, tt).
Proof.
  apply (doRequest_body_error unit plain_NewRequest
           (canned_Do (Ok (mkResponse 200 (Err dial_timeout))))
           parent_heap parent_ref "GET" [] tt tt
           (mkRequest "GET" (Firebase_String parent_heap parent_ref) ∅ [])
           (mkResponse 200 (Err dial_timeout)) dial_timeout); reflexivity.
Defined.

Lemma doRequest_one_round_trip_witness :
  (doRequest (list Request) plain_NewRequest logging_Do
             parent_heap parent_ref "GET" [] []).2
  = [mkRequest "GET" "https://example.com/.json?auth=token" ∅ []].
Proof.
  rewrite (doRequest_one_round_trip (list Request) plain_NewRequest logging_Do
             parent_heap parent_ref "GET" [] []
             (mkRequest "GET" (Firebase_String parent_heap parent_ref) ∅ []));
    [|reflexivity].
  vm_compute. reflexivity.
Defined.

Lemma doRequest_transport_message_witness :
  ∃ r, doRequest unit plain_NewRequest (canned_Do (Err dial_timeout))
                 parent_heap parent_ref "GET" [] tt = (Err r, tt)
       ∧ (r = dial_timeout ∨ r = ErrTimeout dial_timeout)
       ∧ Error r = Error dial_timeout.
Proof.
  apply (doRequest_transport_message unit plain_NewRequest (canned_Do (Err dial_timeout))
           parent_heap parent_ref "GET" [] tt tt
           (mkRequest "GET" (Firebase_String parent_heap parent_ref) ∅ [])
           dial_timeout); reflexivity.
Defined.

Lemma doRequest_success_inv_witness :
  ∃ req resp,
    makeRequest plain_NewRequest parent_heap parent_ref "GET" [] = Ok req
    ∧ canned_Do (Ok (mkResponse 200 (Ok refused))) (client parent_ref) req tt
      = (Ok resp, tt)
    ∧ ReadAll_Body resp = Ok refused
    ∧ (200 ≤ StatusCode resp < 400)%Z.
Proof.
  apply (doRequest_success_inv unit plain_NewRequest
           (canned_Do (Ok (mkResponse 200 (Ok refused))))
           parent_heap parent_ref "GET" [] tt tt refused).
  reflexivity.
Defined.

(** * Further properties of the redirect policy and of Push *)

(** X16: the redirect policy touches nothing but the header: method, URL
    and body of the request are kept; no header key of the request is dropped;
    and running the policy again on its own result changes nothing more. *)
Theorem redirect_only_header (req : Request) (via : list Request) :
  Method (redirectPreserveHeaders req via).1 = Method req
  ∧ URL (redirectPreserveHeaders req via).1 = URL req
  ∧ Body (redirectPreserveHeaders req via).1 = Body req
  ∧ dom (Header req) ⊆ dom (Header (redirectPreserveHeaders req via).1)
  ∧ redirectPreserveHeaders (redirectPreserveHeaders req via).1 via
    = redirectPreserveHeaders req via.
Proof.
  destruct via as [|first rest]; [done|].
  destruct (decide (length (first :: rest) ≤ defaultRedirectLimit)%nat) as [Hok | Hover].
  - rewrite !redirect_within_limit by done. simpl.
    repeat split; [set_solver|].
    by rewrite (assoc_L (∪)), (idemp_L (∪)).
  - rewrite !redirect_over_limit by lia. done.
Qed.

Section PushMore.

Variable World : Type.
Variable value : Type.
Variable json_Marshal : value → result (list byte).
Variable json_Unmarshal : list byte → result (gmap string string).
Variable doRequest : PushRef.Firebase → string → list byte → World
                     → result (list byte) * World.

Local Abbreviation Push'' :=
  (PushRef.Push World value json_Marshal json_Unmarshal doRequest).

(** X17: [Push] makes at most one request.  The world it leaves is the
    world as it was when the value cannot be serialised, and otherwise the
    world after the single POST; when the response cannot be decoded, [Push]
    returns that error and no reference although the POST has been made. *)
Theorem Push_single_request (fb : PushRef.Firebase) (v : value) (w : World) :
  (Push'' fb v w).2
  = match json_Marshal v with
    | Err _ => w
    | Ok bytes => (doRequest fb "POST" bytes w).2
    end
  ∧ (∀ bytes bytes' w' e,
       json_Marshal v = Ok bytes →
       doRequest fb "POST" bytes w = (Ok bytes', w') →
       json_Unmarshal bytes' = Err e →
       Push'' fb v w = (Err e, w')).
Proof.
  unfold PushRef.Push. split.
  - destruct (json_Marshal v) as [bytes | e]; [|done].
    destruct (doRequest fb "POST" bytes w) as [[bytes' | e] w']; [|done].
    by destruct (json_Unmarshal bytes').
  - intros bytes bytes' w' e -> -> ->. done.
Qed.

(** X18: a response that decodes but has no [name] field does not make
    [Push] fail: the key read is the empty string, and the reference returned
    has the parent's path followed by a lone slash. *)
Theorem Push_missing_name (fb : PushRef.Firebase) (v : value) (w w' : World)
        (bytes bytes' : list byte) (m : gmap string string) :
  json_Marshal v = Ok bytes →
  doRequest fb "POST" bytes w = (Ok bytes', w') →
  json_Unmarshal bytes' = Ok m →
  m !! "name" = None →
  Push'' fb v w
  = (Ok (PushRef.mkFirebase (PushRef.repo fb) (PushRef.path fb +:+ "/")
                            (PushRef.client fb)), w').
Proof.
  intros Hm Hdo Hu Hname. unfold PushRef.Push, PushRef.index.
  rewrite Hm, Hdo, Hu, Hname. simpl. by rewrite string_app_empty_r.
Qed.

End PushMore.

Lemma Push_single_request_witness :
  PushRef.Push (list (string * list byte)) (option string)
               toy_Marshal failing_Unmarshal toy_doRequest toy_ref (Some "v") []
  = (Err (errorString "unexpected end of JSON input"),
     [("POST", list_byte_of_string "v")]).
Proof.
  apply (Push_single_request (list (string * list byte)) (option string)
           toy_Marshal failing_Unmarshal toy_doRequest toy_ref (Some "v") [])
    with (bytes := list_byte_of_string "v") (bytes' := list_byte_of_string "-Kabc");
    reflexivity.
Defined.

Lemma Push_missing_name_witness :
  PushRef.Push (list (string * list byte)) (option string)
               toy_Marshal nameless_Unmarshal toy_doRequest toy_ref (Some "v") []
  = (Ok (PushRef.mkFirebase "example" "/users/" firego_Client),
     [("POST", list_byte_of_string "v")]).
Proof.
  apply (Push_missing_name (list (string * list byte)) (option string)
           toy_Marshal nameless_Unmarshal toy_doRequest toy_ref (Some "v") []
           [("POST", list_byte_of_string "v")]
           (list_byte_of_string "v") (list_byte_of_string "-Kabc") ∅); reflexivity.
Defined.

(** X19: on a fresh reference the last [Set] of a key wins and a [Del]
    clears it: after setting [k] twice the reference renders the second value
    only, and after deleting [k] it renders without a query string again. *)
Theorem String_Set_Set_Del (u k v v' : string) (cl : option Client) (h : heap) :
  Firebase_String
    (Values.Set_ (Values.Set_ (New u cl h).2 (params (New u cl h).1) k v)
                 (params (New u cl h).1) k v')
    (New u cl h).1
  = sanitizeURL u +:+ "/.json" +:+ "?"
    +:+ (url_pkg.QueryEscape k +:+ "=" +:+ url_pkg.QueryEscape v')
  ∧ Firebase_String
      (Values.Del (Values.Set_ (New u cl h).2 (params (New u cl h).1) k v)
                  (params (New u cl h).1) k)
      (New u cl h).1
    = sanitizeURL u +:+ "/.json".
Proof.
  set (p := params (New u cl h).1).
  set (h1 := Values.Set_ (New u cl h).2 p k v).
  assert (Hv1 : h_values h1 !! p = Some {[k := (alloc_array [v] (New u cl h).2).1]}).
  { subst h1 p. unfold Values.Set_, values_assign, New, alloc_values, alloc_chan,
      alloc_events, alloc_array. simpl.
    by rewrite alter_insert_eq, lookup_insert_eq, insert_empty. }
  split.
  - assert (Hat : values_at (Values.Set_ h1 p k v') p = {[k := (alloc_array [v'] h1).1]}).
    { unfold values_at, Values.Set_, values_assign, alloc_array.
      cbn [h_values fst snd]. rewrite lookup_alter_eq, Hv1.
      cbn [fmap option_fmap option_map default from_option id].
      by rewrite insert_singleton_eq. }
    assert (Hs : slice_read (Values.Set_ h1 p k v') (alloc_array [v'] h1).1 = [v']).
    { unfold slice_read, Values.Set_, values_assign, alloc_array.
      cbn [h_arrays s_ptr s_len fst snd]. by rewrite lookup_insert_eq. }
    unfold Firebase_String, values_read. fold p.
    rewrite Hat, map_size_singleton, map_fmap_singleton, Hs, Encode_single, New_url.
    simpl Nat.ltb. cbv iota. by rewrite string_app_assoc.
  - assert (Hat : values_at (Values.Del h1 p k) p = ∅).
    { unfold values_at, Values.Del, values_delete. cbn [h_values].
      rewrite lookup_alter_eq, Hv1.
      cbn [fmap option_fmap option_map default from_option id].
      by rewrite delete_singleton_eq. }
    unfold Firebase_String. fold p. by rewrite Hat, New_url.
Qed.
